(** * transcripciones: the chat-log grouping and placement script

    A shallow embedding of [src/audios_profe.py]: the line matcher (the two
    regular expressions and the branch conditions of the grouping loop), the
    resume state kept in [pickle.pkl], the grouping loop with its end-of-run
    filter, and the placement loop that moves attachments into topic
    folders.

    Python [str] values are lists of Unicode code points ([N]).  The
    Unicode property tables that [re] and [str.strip] consult, and the
    directory constants of the absent [consts.paths] module, are taken as
    parameters. *)

From Stdlib Require Import NArith String Ascii List Lia.
From stdpp Require Import base option list gmap.

Local Open Scope N_scope.

(** ** Strings *)

(** The code points of an ASCII literal of the script. *)
Definition lit (s : string) : list N :=
  map N_of_ascii (list_ascii_of_string s).

(** U+200E LEFT-TO-RIGHT MARK, the invisible character both patterns name. *)
Definition LRM : N := 8206.
Definition NEWLINE : N := 10.

(** [s.startswith(p)] *)
Fixpoint starts_with (p s : list N) : bool :=
  match p, s with
  | [], _ => true
  | _ :: _, [] => false
  | a :: p', b :: s' => (a =? b) && starts_with p' s'
  end.

(** [needle in hay] *)
Fixpoint contains (needle hay : list N) : bool :=
  starts_with needle hay ||
  match hay with
  | [] => false
  | _ :: hay' => contains needle hay'
  end.

(** [s.replace(a, b)] for one-character [a] and [b]. *)
Definition replace_char (a b : N) (s : list N) : list N :=
  map (fun c => if c =? a then b else c) s.

(** The tables of the Unicode database that the script reaches through
    [re] ([\d], [\w], [\s]) and through [str.strip]. *)
Class UnicodeDB := {
  isdecimal : N → bool;
  isalnum : N → bool;
  isspace : N → bool
}.

Section Text.
Context `{UnicodeDB}.

Fixpoint lstrip (s : list N) : list N :=
  match s with
  | c :: s' => if isspace c then lstrip s' else s
  | [] => []
  end.

Definition rstrip (s : list N) : list N := rev (lstrip (rev s)).

(** [s.strip()] *)
Definition strip (s : list N) : list N := rstrip (lstrip s).

(** [\d], [[\w\s]] and [.] as predicates on one code point. *)
Definition cls_d (c : N) : bool := isdecimal c.
Definition cls_w (c : N) : bool := isalnum c || (c =? 95).
Definition cls_ws (c : N) : bool := cls_w c || isspace c.
Definition cls_dot (c : N) : bool := negb (c =? NEWLINE).

End Text.

(** ** Regular expressions

    The fragment of [re] syntax the two patterns use.  Repetition is only
    ever applied to a one-character class, and is greedy. *)
Inductive regex :=
| Eps
| Chr (c : N)
| Cls (p : N → bool)
| Cat (r1 r2 : regex)
| Opt (r : regex)
| Star (p : N → bool)
| Plus (p : N → bool)
| Grp (i : nat) (r : regex).

(** Captured groups: [None] for a group that did not take part. *)
Definition caps := nat → option (list N).

Definition no_caps : caps := fun _ => None.

Definition set_cap (i : nat) (x : list N) (g : caps) : caps :=
  fun j => if Nat.eqb j i then Some x else g j.

Section Matcher.
Context {A : Type}.

(** Greedy [p*]: take the longest run first, give characters back one at a
    time while the rest of the pattern fails. *)
Fixpoint star (p : N → bool) (s : list N) (k : list N → option A) : option A :=
  match s with
  | c :: s' =>
      if p c then
        match star p s' k with
        | Some x => Some x
        | None => k s
        end
      else k s
  | [] => k []
  end.

(** Backtracking matcher in continuation-passing style: [k] is what is left
    of the pattern, applied to what is left of the subject. *)
Fixpoint rmatch (r : regex) (s : list N) (g : caps)
    (k : list N → caps → option A) : option A :=
  match r with
  | Eps => k s g
  | Chr c =>
      match s with
      | x :: s' => if x =? c then k s' g else None
      | [] => None
      end
  | Cls p =>
      match s with
      | x :: s' => if p x then k s' g else None
      | [] => None
      end
  | Cat r1 r2 => rmatch r1 s g (fun s' g' => rmatch r2 s' g' k)
  | Opt r1 =>
      match rmatch r1 s g k with
      | Some x => Some x
      | None => k s g
      end
  | Star p => star p s (fun s' => k s' g)
  | Plus p =>
      match s with
      | x :: s' => if p x then star p s' (fun s'' => k s'' g) else None
      | [] => None
      end
  | Grp i r1 =>
      rmatch r1 s g
        (fun s' g' => k s' (set_cap i (take (length s - length s') s) g'))
  end.

End Matcher.

(** [re.match(r, s)]: anchored at the start, not at the end. *)
Definition re_match (r : regex) (s : list N) : option caps :=
  rmatch r s no_caps (fun _ g => Some g).

Fixpoint cat_all (rs : list regex) : regex :=
  match rs with
  | [] => Eps
  | [r] => r
  | r :: rs' => Cat r (cat_all rs')
  end.

Definition Lits (s : string) : regex := cat_all (map Chr (lit s)).

Section Patterns.
Context `{UnicodeDB}.

(** [PATTERN]: an optional U+200E (group 1), an opening bracket, the date
    [\d+/\d+/\d+] (group 2), a comma and a space, the time [\d+:\d+:\d+]
    (group 3), a closing bracket and a space, the sender [[\w\s]+]
    (group 4), a colon and a space, and the message: any run of characters
    other than a newline (group 5). *)
Definition PATTERN : regex :=
  cat_all
    [ Opt (Grp 1 (Chr LRM));
      Lits "[";
      Grp 2 (cat_all [Plus cls_d; Lits "/"; Plus cls_d; Lits "/"; Plus cls_d]);
      Lits ", ";
      Grp 3 (cat_all [Plus cls_d; Lits ":"; Plus cls_d; Lits ":"; Plus cls_d]);
      Lits "] ";
      Grp 4 (Plus cls_ws);
      Lits ": ";
      Grp 5 (Star cls_dot) ].

(** [FILENAME_PATTERN]: any run of characters other than a newline, U+200E,
    the text [<attached: ], the file name: any run of characters other than
    a newline (group 1), and a closing [>]. *)
Definition FILENAME_PATTERN : regex :=
  cat_all
    [ Star cls_dot; Chr LRM; Lits "<attached: "; Grp 1 (Star cls_dot); Lits ">" ].

End Patterns.

(** ** Paths

    [pathlib.PurePosixPath]: whether the path starts at the root, and its
    components.  Parsing a string drops empty components and single dots and
    keeps double dots. *)
Record path := Path { absolute : bool; parts : list (list N) }.

#[global] Instance path_eq_dec : EqDecision path.
Proof. solve_decision. Defined.

#[global] Instance path_countable : Countable path :=
  inj_countable' (fun p => (absolute p, parts p)) (fun x => Path x.1 x.2)
    (fun p => match p with Path _ _ => eq_refl end).

Definition SLASH : N := 47.
Definition DOT : N := 46.

(** [s.split(sep)] for a one-character separator. *)
Fixpoint split_on (sep : N) (s : list N) : list (list N) :=
  match s with
  | [] => [[]]
  | c :: s' =>
      if c =? sep then [] :: split_on sep s'
      else match split_on sep s' with
           | w :: ws => (c :: w) :: ws
           | [] => [[c]]
           end
  end.

Definition str_eqb (a b : list N) : bool := bool_decide (a = b).

Definition parse_path (s : list N) : path :=
  Path (starts_with [SLASH] s)
       (List.filter (fun w => negb (str_eqb w []) && negb (str_eqb w [DOT]))
                    (split_on SLASH s)).

(** [p / s] with [s] a string: an absolute right operand replaces [p]. *)
Definition joinpath (p : path) (s : list N) : path :=
  let q := parse_path s in
  if absolute q then q else Path (absolute p) (parts p ++ parts q).

Infix "//" := joinpath (at level 40, left associativity).

(** [p.name] *)
Definition name (p : path) : list N := default [] (last (parts p)).

(** [s.rfind(c)] *)
Fixpoint rfind (c : N) (s : list N) : option nat :=
  match s with
  | [] => None
  | x :: s' =>
      match rfind c s' with
      | Some i => Some (S i)
      | None => if x =? c then Some 0%nat else None
      end
  end.

(** [p.suffix]: from the last dot of the name on, unless that dot is the
    first or the last character of the name. *)
Definition suffix (p : path) : list N :=
  match rfind DOT (name p) with
  | Some i =>
      if (Nat.ltb 0 i && Nat.ltb i (length (name p) - 1))%bool
      then drop i (name p) else []
  | None => []
  end.

(** [p.with_suffix(suf)] for a well-formed [suf]; [None] is the
    [ValueError] raised for a path with an empty name. *)
Definition with_suffix (p : path) (suf : list N) : option path :=
  match name p with
  | [] => None
  | _ :: _ =>
      let stem := take (length (name p) - length (suffix p)) (name p) in
      Some (Path (absolute p) (removelast (parts p) ++ [stem ++ suf]))
  end.

(** Lexical resolution of double dots, the way the operating system walks a
    path when no component is a symbolic link. *)
Definition norm_step (absol : bool) (acc : list (list N)) (w : list N)
    : list (list N) :=
  if str_eqb w [DOT; DOT] then
    match acc with
    | [] => if absol then [] else [w]
    | top :: acc' => if str_eqb top [DOT; DOT] then w :: acc else acc'
    end
  else w :: acc.

Definition norm (p : path) : path :=
  Path (absolute p) (rev (fold_left (norm_step (absolute p)) (parts p) [])).

(** ** The file system

    The entries that exist, by resolved path: directories, and files with
    their lines.  The root and the working directory always exist. *)
Inductive kind := File (content : list (list N)) | Dir.

Definition stat (d : gmap path kind) (p : path) : option kind :=
  match parts (norm p) with
  | [] => Some Dir
  | _ :: _ => d !! norm p
  end.

Definition isfile (d : gmap path kind) (p : path) : bool :=
  match stat d p with Some (File _) => true | _ => false end.

(** [os.path.exists(p)], [p.exists()] *)
Definition exists_ (d : gmap path kind) (p : path) : bool :=
  match stat d p with Some _ => true | None => false end.

(** [os.path.isdir(p)] *)
Definition isdir (d : gmap path kind) (p : path) : bool :=
  match stat d p with Some Dir => true | _ => false end.

Definition parent (p : path) : path := Path (absolute p) (removelast (parts p)).

(** [p] and the directories above it, the nearest first. *)
Fixpoint chain (absol : bool) (rparts : list (list N)) : list path :=
  match rparts with
  | [] => []
  | _ :: up => Path absol (rev rparts) :: chain absol up
  end.

Definition ancestors (p : path) : list path :=
  chain (absolute (norm p)) (rev (parts (norm p))).

Inductive exn :=
| IndexError | TypeError | ValueError
| FileNotFoundError | FileExistsError | NotADirectoryError | IsADirectoryError
| ShutilError | BadZipFile.

(** [os.makedirs(p)] *)
Definition makedirs (d : gmap path kind) (p : path) : exn + gmap path kind :=
  if exists_ d p then inl FileExistsError
  else if existsb (isfile d) (ancestors p)
  then inl NotADirectoryError
  else inr (foldr (fun a acc => <[a := Dir]> acc) d (ancestors p)).

(** Whether [q] is [p] or lies below it. *)
Definition below (p q : path) : bool :=
  bool_decide (absolute p = absolute q) &&
  bool_decide (take (length (parts p)) (parts q) = parts p).

Definition reroot (src dst q : path) : path :=
  Path (absolute dst) (parts dst ++ drop (length (parts src)) (parts q)).

(** [os.rename(src, dst)] where [dst] is absent or a file that a file may
    replace: [src], with everything below it, goes to [dst]. *)
Definition rename (d : gmap path kind) (src dst : path) : gmap path kind :=
  let inside := filter (fun e => below src e.1 = true) (map_to_list d) in
  let outside := filter (fun e => below src e.1 = false) d in
  list_to_map (map (fun e => (reroot src dst e.1, e.2)) inside) ∪ outside.

(** [shutil.move(src, dst)]: into [dst] under the name of [src] when [dst]
    is a directory, onto [dst] otherwise. *)
Definition shutil_move (d : gmap path kind) (src dst : path)
    : exn + gmap path kind :=
  let real_dst := if isdir d dst then dst // name src else dst in
  if isdir d dst && exists_ d real_dst then inl ShutilError
  else match stat d src with
       | None => inl FileNotFoundError
       | Some k =>
           if negb (isdir d (parent (norm real_dst))) then inl FileNotFoundError
           else match k with
                | File _ => inr (rename d (norm src) (norm real_dst))
                | Dir =>
                    if below (norm src) (norm real_dst) then inl ShutilError
                    else if exists_ d real_dst then inl FileExistsError
                    else inr (rename d (norm src) (norm real_dst))
                end
       end.

(** [p.unlink()] *)
Definition unlink (d : gmap path kind) (p : path) : exn + gmap path kind :=
  match stat d p with
  | None => inl FileNotFoundError
  | Some Dir => inl IsADirectoryError
  | Some (File _) => inr (delete (norm p) d)
  end.

(** [ends_with s e]: [s.endswith(e)] *)
Definition ends_with (s e : list N) : bool := starts_with (rev e) (rev s).

(** [base.glob(STAR ++ e)]: the entries directly in [base] whose name ends
    with [e], in the order the directory lists them. *)
Definition glob (d : gmap path kind) (base : path) (e : list N) : list path :=
  filter (fun q => parent q = norm base ∧ ends_with (name q) e = true)
         (map fst (map_to_list d)).

(** [base.rglob(STAR ++ e)]: the same at any depth below [base]. *)
Definition rglob (d : gmap path kind) (base : path) (e : list N) : list path :=
  filter (fun q => below (norm base) q = true ∧ q ≠ norm base
                   ∧ ends_with (name q) e = true)
         (map fst (map_to_list d)).

(** ** The state of a run *)

(** One entry of [temas]: the dict with keys [title] and [files]. *)
Record tema := Tema { title : list N; files : list path }.

(** What [pickle.pkl] holds: the dict with keys [last_line] and [temas]. *)
Record resume := Resume { last_line : nat; temas : list tema }.

(** A zip archive: its members, each a name and the lines it holds. *)
Definition archive : Type := list (list N * list (list N)).

(** The lines the script prints. *)
Inductive msg :=
| NoFilesFound (dir : path)
| MovingFile (src dst : path)
| FileMoved (src dst : path)
| NoChatFile (f : path)
| LoadingPickle
| NoNewLines
| Appending (t : list N)
| Adding (file dir : path)
| Converted (file : path).

(** The standard output, [pickle.pkl] in the working directory (absent
    before the first completed run), the file system, and what each zip file
    on it contains. *)
Record world := World {
  stdout : list msg;
  pickle : option resume;
  disk : gmap path kind;
  zips : gmap path archive
}.

Definition set_stdout (f : list msg → list msg) (w : world) : world :=
  World (f (stdout w)) (pickle w) (disk w) (zips w).
Definition set_pickle (r : option resume) (w : world) : world :=
  World (stdout w) r (disk w) (zips w).
Definition set_disk (d : gmap path kind) (w : world) : world :=
  World (stdout w) (pickle w) d (zips w).
Definition set_zips (z : gmap path archive) (w : world) : world :=
  World (stdout w) (pickle w) (disk w) z.

(** How a piece of the script ends: it falls through with a value, calls
    [sys.exit()], or raises. *)
Inductive result (A : Type) :=
| Done (a : A)
| Exited
| Raised (e : exn).
Arguments Done {A} a.
Arguments Exited {A}.
Arguments Raised {A} e.

Definition M (A : Type) : Type := world → result A * world.

Definition ret {A} (a : A) : M A := fun w => (Done a, w).

Definition bind {A B} (c : M A) (k : A → M B) : M B :=
  fun w =>
    match c w with
    | (Done a, w') => k a w'
    | (Exited, w') => (Exited, w')
    | (Raised e, w') => (Raised e, w')
    end.

Notation "x <- c ;; k" := (bind c (fun x => k))
  (at level 100, c at next level, right associativity).
Notation "c ;;; k" := (bind c (fun _ => k))
  (at level 100, k at level 200, right associativity).

Definition sys_exit {A} : M A := fun w => (Exited, w).
Definition raise {A} (e : exn) : M A := fun w => (Raised e, w).
Definition print (m : msg) : M unit :=
  fun w => (Done tt, set_stdout (fun out => out ++ [m]) w).
Definition get {A} (f : world → A) : M A := fun w => (Done (f w), w).
Definition put (f : world → world) : M unit := fun w => (Done tt, f w).

(** A file-system call: its effect on the disk, or the exception. *)
Definition fs_call (f : gmap path kind → exn + gmap path kind) : M unit :=
  fun w =>
    match f (disk w) with
    | inl e => (Raised e, w)
    | inr d => (Done tt, set_disk d w)
    end.

(** [for x in xs: body], with the local variables the body rebinds or
    mutates threaded as [acc]. *)
Fixpoint for_acc {X S} (body : S → X → M S) (xs : list X) (acc : S) : M S :=
  match xs with
  | [] => ret acc
  | x :: xs' => acc' <- body acc x ;; for_acc body xs' acc'
  end.

Definition for_each {X} (body : X → M unit) (xs : list X) : M unit :=
  for_acc (fun _ x => body x) xs tt.

(** ** The script *)

(** The four directories of the absent [consts.paths] module. *)
Class Paths := {
  ZIP_SOURCE_DIR : path;
  PROFE_DIR : path;
  PROFE_SORTED_DIR : path;
  DUMP_DIR : path
}.

(** [utils.opus_to_mp3.convert_opus_to_mp3], absent as well. *)
Class Converter := convert_opus_to_mp3 : path → M unit.

(** The three outcomes of matching one line. *)
Inductive event :=
| Content (text : list N)
| Attachment (filename : list N)
| NonMatch.

Section Script.
Context `{UnicodeDB} `{Paths} `{Converter}.

Definition CHAT_FILE : path := DUMP_DIR // lit "_chat.txt".

(** Truth value of a group of a match: [None] and the empty string are
    false. *)
Definition truthy (o : option (list N)) : bool :=
  match o with
  | Some (_ :: _) => true
  | _ => false
  end.

(** The condition of the first [if] of the loop body. *)
Definition opens_tema (char : option (list N)) (message : list N) : bool :=
  negb (contains (lit "omitted") message)
  && negb (contains (lit "deleted") message)
  && negb (truthy char).

(** The condition of the second [if] of the loop body. *)
Definition names_file (char : option (list N)) (message : list N) : bool :=
  truthy char
  && negb (contains (lit "omitted") message)
  && contains (lit "attached") message.

(** [temas[-1]["files"].append(p)]; [None] is the [IndexError] of [temas[-1]]
    on an empty list. *)
Definition append_to_last (ts : list tema) (p : path) : option (list tema) :=
  match last ts with
  | None => None
  | Some t => Some (removelast ts ++ [Tema (title t) (files t ++ [p])])
  end.

(** The body of the grouping loop, for one line. *)
Definition loop_body (ts : list tema) (line : list N) : M (list tema) :=
  match re_match PATTERN line with
  | None => ret ts
  | Some g =>
      let char := g 1%nat in
      match g 5%nat with
      | None => raise TypeError
      | Some message =>
          ts <- (if opens_tema char message then
                   let t := Tema (replace_char SLASH 95 message) [] in
                   print (Appending (title t)) ;;;
                   ret (ts ++ [t])
                 else ret ts) ;;
          if names_file char message then
            match re_match FILENAME_PATTERN (strip message) with
            | None => ret ts
            | Some g' =>
                match g' 1%nat with
                | None => raise TypeError
                | Some filename =>
                    match append_to_last ts (DUMP_DIR // filename) with
                    | None => raise IndexError
                    | Some ts' => ret ts'
                    end
                end
            end
          else ret ts
      end
  end.

(** The line matcher on its own: what the two [if]s of the loop body decide
    about a line. *)
Definition classify (line : list N) : event :=
  match re_match PATTERN line with
  | None => NonMatch
  | Some g =>
      let char := g 1%nat in
      let message := default [] (g 5%nat) in
      if opens_tema char message then Content message
      else if names_file char message then
        match re_match FILENAME_PATTERN (strip message) with
        | Some g' => Attachment (default [] (g' 1%nat))
        | None => NonMatch
        end
      else NonMatch
  end.

(** Lines 50 to 61: the archives waiting in the source directory go to
    [PROFE_DIR]. *)
Definition move_zip (src dst : path) : M unit :=
  d <- get disk ;;
  fs_call (fun d => shutil_move d src dst) ;;;
  let real_dst := if isdir d dst then dst // name src else dst in
  put (fun w =>
         set_zips
           match zips w !! norm src with
           | Some a => <[norm real_dst := a]> (delete (norm src) (zips w))
           | None => delete (norm real_dst) (zips w)
           end w).

Definition move_zips : M unit :=
  d <- get disk ;;
  match glob d ZIP_SOURCE_DIR (lit "profe.zip") with
  | [] => print (NoFilesFound ZIP_SOURCE_DIR) ;;; sys_exit
  | found =>
      for_each
        (fun file_path =>
           print (MovingFile file_path (PROFE_DIR // name file_path)) ;;;
           d <- get disk ;;
           (if negb (exists_ d PROFE_DIR)
            then fs_call (fun d => makedirs d PROFE_DIR) else ret tt) ;;;
           move_zip file_path (PROFE_DIR // name file_path) ;;;
           print (FileMoved file_path (PROFE_DIR // name file_path)))
        found
  end.

(** Lines 63 to 65: every archive in [PROFE_DIR] is unpacked into
    [DUMP_DIR]. *)
Definition write_file (d : gmap path kind) (p : path) (content : list (list N))
    : exn + gmap path kind :=
  if isdir d p then inl IsADirectoryError
  else if existsb (isfile d) (tail (ancestors p)) then inl NotADirectoryError
  else inr (<[norm p := File content]>
              (foldr (fun a acc => <[a := Dir]> acc) d (tail (ancestors p)))).

Definition member_target (m : list N) : path :=
  Path (absolute DUMP_DIR)
       (parts DUMP_DIR
        ++ List.filter (fun w => negb (str_eqb w [DOT; DOT])) (parts (parse_path m))).

Definition extract_zips : M unit :=
  d <- get disk ;;
  for_each
    (fun zip_file =>
       z <- get zips ;;
       match z !! zip_file with
       | None => raise BadZipFile
       | Some a =>
           for_each
             (fun m => fs_call (fun d => write_file d (member_target m.1) m.2)) a
       end)
    (glob d PROFE_DIR (lit "profe.zip")).

(** Lines 68 to 73. *)
Definition read_chat : M (list (list N)) :=
  d <- get disk ;;
  if negb (exists_ d CHAT_FILE) then print (NoChatFile CHAT_FILE) ;;; sys_exit
  else match stat d CHAT_FILE with
       | Some (File ls) => ret ls
       | _ => raise IsADirectoryError
       end.

(** Lines 82 to 90. *)
Definition load : M (nat * list tema) :=
  p <- get pickle ;;
  match p with
  | Some data_loaded =>
      print LoadingPickle ;;;
      ret (last_line data_loaded, temas data_loaded)
  | None => ret (23%nat, [])
  end.

(** Lines 124 to 132. *)
Definition save (LAST_LINE : nat) (ts : list tema) : M unit :=
  put (set_pickle (Some (Resume LAST_LINE ts))).

(** Line 122: [item for item in temas if item["files"]]. *)
Definition has_files (t : tema) : bool :=
  match files t with
  | [] => false
  | _ :: _ => true
  end.

Definition WAV : list N := lit ".wav".
Definition OGG : list N := lit ".ogg".
Definition OPUS : list N := lit ".opus".

(** Lines 141 to 152, for one file of one tema. *)
Definition place_file (t : tema) (file : path) : M unit :=
  let sorted_file_path := PROFE_SORTED_DIR // title t // name file in
  sorted_file_path <-
    (if str_eqb (suffix sorted_file_path) OGG || str_eqb (suffix sorted_file_path) OPUS
     then match with_suffix file WAV with
          | None => raise ValueError
          | Some converted => ret (PROFE_SORTED_DIR // title t // name converted)
          end
     else ret sorted_file_path) ;;
  d <- get disk ;;
  if negb (exists_ d sorted_file_path) then
    print (Adding file (PROFE_SORTED_DIR // title t)) ;;;
    fs_call (fun d => shutil_move d file (PROFE_SORTED_DIR // title t))
  else ret tt.

(** Lines 136 and 137. *)
Definition ensure_folder (t : tema) : M unit :=
  d <- get disk ;;
  if negb (exists_ d (PROFE_SORTED_DIR // title t)) && has_files t
  then fs_call (fun d => makedirs d (PROFE_SORTED_DIR // title t))
  else ret tt.

(** Lines 134 to 152, for one tema. *)
Definition place_tema (t : tema) : M unit :=
  ensure_folder t ;;;
  for_each (place_file t) (files t).

(** Lines 82 to 152: load the resume state, group the new lines, drop the
    temas without files, save, place. *)
Definition engine (lines : list (list N)) : M unit :=
  loaded <- load ;;
  let LAST_LINE := loaded.1 in
  let ts := loaded.2 in
  if Nat.eqb LAST_LINE (length lines) then print NoNewLines ;;; sys_exit
  else
    ts <- for_acc loop_body (drop LAST_LINE lines) ts ;;
    let LAST_LINE := length lines in
    let ts := List.filter has_files ts in
    save LAST_LINE ts ;;;
    for_each place_tema ts.

(** Lines 155 to 167. *)
Definition convert_all : M unit :=
  d <- get disk ;;
  let matching_files :=
    rglob d PROFE_SORTED_DIR OPUS ++ rglob d PROFE_SORTED_DIR OGG in
  for_each
    (fun file =>
       convert_opus_to_mp3 file ;;;
       print (Converted file) ;;;
       fs_call (fun d => unlink d file))
    matching_files.

(** The whole script. *)
Definition main : M unit :=
  move_zips ;;;
  extract_zips ;;;
  lines <- read_chat ;;
  engine lines ;;;
  convert_all.

End Script.


(** ** The grouping loop in closed form *)

Section Grouping.
Context `{UnicodeDB} `{Paths}.

(** What one line does to [temas] and to the output. *)
Definition on_event (ts : list tema) (e : event) : M (list tema) :=
  match e with
  | Content m =>
      print (Appending (replace_char SLASH 95 m)) ;;;
      ret (ts ++ [Tema (replace_char SLASH 95 m) []])
  | Attachment f =>
      match append_to_last ts (DUMP_DIR // f) with
      | Some ts' => ret ts'
      | None => raise IndexError
      end
  | NonMatch => ret ts
  end.

(** The files named by the attachment lines that come before the first
    content line. *)
Fixpoint leading (lines : list (list N)) : list path :=
  match lines with
  | [] => []
  | l :: rest =>
      match classify l with
      | Content _ => []
      | Attachment f => (DUMP_DIR // f) :: leading rest
      | NonMatch => leading rest
      end
  end.

(** One tema for each content line, holding the files named between that
    line and the next content line. *)
Fixpoint opened (lines : list (list N)) : list tema :=
  match lines with
  | [] => []
  | l :: rest =>
      match classify l with
      | Content m => Tema (replace_char SLASH 95 m) (leading rest) :: opened rest
      | _ => opened rest
      end
  end.

(** The last tema of [ts] with [fs] appended to its files. *)
Definition absorb (ts : list tema) (fs : list path) : list tema :=
  match last ts with
  | Some t => removelast ts ++ [Tema (title t) (files t ++ fs)]
  | None => []
  end.

(** What the loop prints. *)
Fixpoint announced (lines : list (list N)) : list msg :=
  match lines with
  | [] => []
  | l :: rest =>
      match classify l with
      | Content m => Appending (replace_char SLASH 95 m) :: announced rest
      | _ => announced rest
      end
  end.

(** The grouping loop as a function of the loaded temas and the new lines:
    its outcome and its output. *)
Definition grouped (ts : list tema) (lines : list (list N))
    : result (list tema) * list msg :=
  match ts, leading lines with
  | [], _ :: _ => (Raised IndexError, [])
  | _, _ => (Done (absorb ts (leading lines) ++ opened lines), announced lines)
  end.

(** The last tema a run has opened has its files, or the lines to come do
    not start with files for it. *)
Definition settled (ts : list tema) (rest : list (list N)) : Prop :=
  match last ts with
  | Some t => has_files t = true ∨ leading rest = []
  | None => True
  end.

End Grouping.

(** [out] added to the standard output. *)
Definition emit (out : list msg) (w : world) : world :=
  set_stdout (fun o => o ++ out) w.

(** Whether every successful match of [r] fills group [i]. *)
Fixpoint sets (i : nat) (r : regex) : bool :=
  match r with
  | Cat r1 r2 => sets i r1 || sets i r2
  | Grp j r1 => Nat.eqb j i || sets i r1
  | _ => false
  end.

(** ** Reading the resume state *)

(** [LAST_LINE] and [temas] as lines 82 to 90 leave them. *)
Definition loaded_index (w : world) : nat :=
  match pickle w with
  | Some data_loaded => last_line data_loaded
  | None => 23%nat
  end.

Definition loaded_temas (w : world) : list tema :=
  match pickle w with
  | Some data_loaded => temas data_loaded
  | None => []
  end.

Definition load_output (w : world) : list msg :=
  match pickle w with
  | Some _ => [LoadingPickle]
  | None => []
  end.

(** The new lines of a run: [lines[LAST_LINE:]]. *)
Definition window (w : world) (lines : list (list N)) : list (list N) :=
  drop (loaded_index w) lines.

(** A piece of the script that leaves the component [f] of the world as it
    found it, however it ends. *)
Definition keeps {A B} (f : world → A) (c : M B) : Prop :=
  ∀ w, f (c w).2 = f w.

(** ** Well-formed paths and the name the planner looks for *)

(** What [pathlib] keeps as one component of a path. *)
Definition component (w : list N) : Prop :=
  w ≠ [] ∧ w ≠ [DOT] ∧ SLASH ∉ w.

Definition wf_path (p : path) : Prop := Forall component (parts p).

#[global] Instance component_dec w : Decision (component w).
Proof. unfold component. apply _. Defined.

#[global] Instance wf_path_dec p : Decision (wf_path p).
Proof. unfold wf_path. apply _. Defined.

(** [p.stem] *)
Definition stem (p : path) : list N :=
  take (length (name p) - length (suffix p)) (name p).

(** Whether the extension is one of the two the conversion step takes. *)
Definition convertible (p : path) : bool :=
  str_eqb (suffix p) (lit ".ogg") || str_eqb (suffix p) (lit ".opus").

(** The file name whose presence in the topic folder makes the planner skip
    [file]: its own name, or for a convertible file its name with the
    extension replaced by [.wav]. *)
Definition prospective_name (file : path) : list N :=
  if convertible file then stem file ++ lit ".wav" else name file.

Section Destination.
Context `{Paths}.

(** The folder of a tema. *)
Definition folder (t : tema) : path := PROFE_SORTED_DIR // title t.

(** The path the planner probes for [file] in the folder of [t]. *)
Definition prospective (t : tema) (file : path) : path :=
  folder t // prospective_name file.

(** What the planner does when it does not skip. *)
Definition move_in (t : tema) (file : path) : M unit :=
  print (Adding file (folder t)) ;;;
  fs_call (fun d => shutil_move d file (folder t)).

End Destination.

(** ** Sample data *)

Module Sample.

(** The rows of the Unicode tables for ASCII, and all of the white space
    table. *)
Definition tables : UnicodeDB := {|
  isdecimal c := (48 <=? c) && (c <=? 57);
  isalnum c :=
    ((48 <=? c) && (c <=? 57)) || ((65 <=? c) && (c <=? 90))
    || ((97 <=? c) && (c <=? 122));
  isspace c :=
    ((9 <=? c) && (c <=? 13)) || ((28 <=? c) && (c <=? 32))
    || (c =? 133) || (c =? 160) || (c =? 5760)
    || ((8192 <=? c) && (c <=? 8202)) || (c =? 8232) || (c =? 8233)
    || (c =? 8239) || (c =? 8287) || (c =? 12288)
|}.

(** The directories as the module docstring of the script names them; the
    source directory is not named there. *)
Definition dirs : Paths := {|
  ZIP_SOURCE_DIR := Path false [lit "Downloads"];
  PROFE_DIR := Path false [lit "profe"];
  PROFE_SORTED_DIR := Path false [lit "profe"; lit "sorted"];
  DUMP_DIR := Path false [lit "profe"; lit ".dump"]
|}.

(** A converter that writes nothing. *)
Definition idle : Converter := fun _ => ret tt.

(** A line with an ordinary message. *)
Definition said (text : string) : list N :=
  lit "[1/1/24, 10:00:00] Ana: " ++ lit text ++ [NEWLINE].

(** A line with an attachment marker. *)
Definition sent (file : string) : list N :=
  [LRM] ++ lit "[1/1/24, 10:00:05] Ana: " ++ [LRM]
  ++ lit "<attached: " ++ lit file ++ lit ">" ++ [NEWLINE].

(** A marker line whose closing bracket is missing. *)
Definition torn (file : string) : list N :=
  [LRM] ++ lit "[1/1/24, 10:00:05] Ana: " ++ [LRM]
  ++ lit "<attached: " ++ lit file ++ [NEWLINE].

(** The 23 lines that a first run skips. *)
Definition header : list (list N) := repeat [NEWLINE] 23.

Definition in_dump (file : string) : path :=
  Path false [lit "profe"; lit ".dump"; lit file].

Definition in_sorted (topic file : string) : path :=
  Path false [lit "profe"; lit "sorted"; lit topic; lit file].

(** A disk with the dump directory holding the given files. *)
Definition staged (names : list string) : gmap path kind :=
  list_to_map
    ((Path false [lit "profe"], Dir)
     :: (Path false [lit "profe"; lit ".dump"], Dir)
     :: map (fun f => (in_dump f, File [])) names).

Definition fresh (names : list string) : world :=
  World [] None (staged names) ∅.

Definition resumed (n : nat) (ts : list tema) (names : list string) : world :=
  World [] (Some (Resume n ts)) (staged names) ∅.

(** The tema [A] holding [a.opus], and logs that tell of it. *)
Definition tema_A : tema := Tema (lit "A") [in_dump "a.opus"].


Definition log_A_B : list (list N) :=
  header ++ [said "A"; sent "a.opus"; said "B"].

Definition log_A_b : list (list N) :=
  header ++ [said "A"; sent "a.opus"; sent "b.opus"].


(** A log with two topics whose files need no conversion. *)
Definition log_photos : list (list N) :=
  header ++ [said "A"; sent "a.jpg"; said "B"; sent "b.jpg"].


(** A first run with one archive waiting in the source directory. *)
Definition waiting (a : archive) : world :=
  World [] None
    (list_to_map
       [(Path false [lit "Downloads"], Dir);
        (Path false [lit "Downloads"; lit "chat_profe.zip"], File [])])
    {[ Path false [lit "Downloads"; lit "chat_profe.zip"] := a ]}.

End Sample.

(** ** What the matcher accepts *)

(** The strings a pattern matches, whatever the groups. *)
Inductive matches : regex → list N → Prop :=
| matches_eps : matches Eps []
| matches_chr c : matches (Chr c) [c]
| matches_cls (p : N → bool) c : p c = true → matches (Cls p) [c]
| matches_cat r1 r2 a b :
    matches r1 a → matches r2 b → matches (Cat r1 r2) (a ++ b)
| matches_opt r a : matches r a → matches (Opt r) a
| matches_opt_skip r : matches (Opt r) []
| matches_star (p : N → bool) a :
    Forall (fun c => p c = true) a → matches (Star p) a
| matches_plus (p : N → bool) a :
    a ≠ [] → Forall (fun c => p c = true) a → matches (Plus p) a
| matches_grp i r a : matches r a → matches (Grp i r) a.

(** The sub-patterns that group [i] encloses. *)
Fixpoint enclosed (i : nat) (r : regex) : list regex :=
  match r with
  | Cat r1 r2 => enclosed i r1 ++ enclosed i r2
  | Opt r1 => enclosed i r1
  | Grp j r1 => (if Nat.eqb j i then [r1] else []) ++ enclosed i r1
  | _ => []
  end.

(** Every group that [g'] holds beyond those of [g] holds a string that a
    sub-pattern enclosed by that group matches. *)
Definition captured_by (r : regex) (g g' : caps) : Prop :=
  ∀ i y, g' i = Some y →
    g i = Some y ∨ ∃ ri, ri ∈ enclosed i r ∧ matches ri y.

Section PatternParts.
Context `{UnicodeDB}.

(** [PATTERN] after its optional first group. *)
Definition PATTERN_tail : regex :=
  cat_all
    [ Lits "[";
      Grp 2 (cat_all [Plus cls_d; Lits "/"; Plus cls_d; Lits "/"; Plus cls_d]);
      Lits ", ";
      Grp 3 (cat_all [Plus cls_d; Lits ":"; Plus cls_d; Lits ":"; Plus cls_d]);
      Lits "] ";
      Grp 4 (Plus cls_ws);
      Lits ": ";
      Grp 5 (Star cls_dot) ].

End PatternParts.

(** ** The transcription script

    The two loops of [src/transcribir.py], over whatever files its globs
    yield.  The directories of [consts.paths], and what [librosa] and the
    Whisper model make of a file, are parameters. *)

Module Transcribir.

Class Dirs := {
  videos_dir : path;
  audios_dir : path;
  transcriptions_dir : path
}.

(** [librosa.load] on a video and [MODEL.transcribe] on an audio file, each
    as a function of what is found at the path: the samples or the text, or
    the exception. *)
Class Tools := {
  librosa_load : kind → exn + list (list N);
  whisper_transcribe : kind → exn + list N
}.

(** The lines the script prints. *)
Inductive line :=
| Skipping (video : path)
| DoingVideo (name : list N)
| DoingAudio (audio : path).

Record state := State { printed : list line; tree : gmap path kind }.

Definition T (A : Type) : Type := state → result A * state.

#[global] Instance T_ret : MRet T := fun A a s => (Done a, s).

#[global] Instance T_bind : MBind T := fun A B k c s =>
  match c s with
  | (Done a, s') => k a s'
  | (Exited, s') => (Exited, s')
  | (Raised e, s') => (Raised e, s')
  end.

Definition raise {A} (e : exn) : T A := fun s => (Raised e, s).

Definition print (l : line) : T unit :=
  fun s => (Done tt, State (printed s ++ [l]) (tree s)).

Definition fs_call (f : gmap path kind → exn + gmap path kind) : T unit :=
  fun s =>
    match f (tree s) with
    | inl e => (Raised e, s)
    | inr d => (Done tt, State (printed s) d)
    end.

Fixpoint for_each {X} (body : X → T unit) (xs : list X) : T unit :=
  match xs with
  | [] => mret tt
  | x :: xs' => body x ;; for_each body xs'
  end.

(** [p.relative_to(base)]; [None] is its [ValueError]. *)
Definition relative_to (p base : path) : option path :=
  if below base p then Some (Path false (drop (length (parts base)) (parts p)))
  else None.

(** [p / q] with [q] a path. *)
Definition join (p q : path) : path :=
  if absolute q then q else Path (absolute p) (parts p ++ parts q).

(** [p.mkdir(parents=True, exist_ok=True)] *)
Definition mkdir_p (d : gmap path kind) (p : path) : exn + gmap path kind :=
  if isdir d p then inr d
  else if exists_ d p then inl FileExistsError
  else if existsb (isfile d) (tail (ancestors p)) then inl NotADirectoryError
  else inr (foldr (fun a acc => <[a := Dir]> acc) d (ancestors p)).

(** [text.replace(". ", ".\n")] *)
Fixpoint break_sentences (s : list N) : list N :=
  match s with
  | a :: s' =>
      match s' with
      | b :: s'' =>
          if (a =? DOT) && (b =? 32) then DOT :: NEWLINE :: break_sentences s''
          else a :: break_sentences s'
      | [] => [a]
      end
  | [] => []
  end.

(** The lines of a text, each with the line break that ends it. *)
Fixpoint lines_of (s : list N) : list (list N) :=
  match s with
  | [] => []
  | c :: s' =>
      if c =? NEWLINE then [c] :: lines_of s'
      else match lines_of s' with
           | l :: ls => (c :: l) :: ls
           | [] => [[c]]
           end
  end.

Section Loops.
Context `{UnicodeDB} `{Dirs} `{Tools}.

(** Where the audio of a video goes, below the audio directory. *)
Definition extracted_of (video_file : path) : option path :=
  match relative_to video_file videos_dir with
  | Some rel => with_suffix rel (lit ".wav")
  | None => None
  end.

(** Where the transcript of an audio file goes, below the transcription
    directory. *)
Definition converted_of (base_audio_dir audio_file : path) : option path :=
  match relative_to audio_file base_audio_dir with
  | Some rel => with_suffix rel (lit ".txt")
  | None => None
  end.

Definition load (video_file : path) : T (list (list N)) :=
  fun s =>
    match stat (tree s) video_file with
    | None => (Raised FileNotFoundError, s)
    | Some k =>
        match librosa_load k with
        | inl e => (Raised e, s)
        | inr y => (Done y, s)
        end
    end.

Definition transcribe (audio_file : path) : T (list N) :=
  fun s =>
    match stat (tree s) audio_file with
    | None => (Raised FileNotFoundError, s)
    | Some k =>
        match whisper_transcribe k with
        | inl e => (Raised e, s)
        | inr text => (Done text, s)
        end
    end.

(** Lines 75 to 91, for one video.  The last line adds a path to a string,
    which raises. *)
Definition extract_one (list_of_extracted : list path) (video_file : path)
    : T unit :=
  match extracted_of video_file with
  | None => raise ValueError
  | Some extracted =>
      if bool_decide (extracted ∈ list_of_extracted)
      then print (Skipping video_file)
      else
        print (DoingVideo (stem video_file)) ;;
        y ← load video_file ;
        let audio_path := join audios_dir extracted in
        fs_call (fun d => mkdir_p d (parent audio_path)) ;;
        fs_call (fun d => write_file d audio_path y) ;;
        raise TypeError
  end.

(** Lines 105 to 119, for one audio file. *)
Definition transcribe_one (list_of_transcribed : list path)
    (base_audio_dir audio_file : path) : T unit :=
  match converted_of base_audio_dir audio_file with
  | None => raise ValueError
  | Some converted =>
      if bool_decide (converted ∈ list_of_transcribed) then mret tt
      else
        print (DoingAudio audio_file) ;;
        raw ← transcribe audio_file ;
        let text := break_sentences (strip raw) in
        let text_file_path := join transcriptions_dir converted in
        fs_call (fun d => mkdir_p d (parent text_file_path)) ;;
        fs_call (fun d => write_file d text_file_path (lines_of text))
  end.

(** Whether the loop transcribes a file: its transcript is not listed. *)
Definition pending (done : list path) (base f : path) : bool :=
  match converted_of base f with
  | Some c => bool_decide (c ∉ done)
  | None => false
  end.

End Loops.

(** Sample directories and tools: the samples of a video are its lines, the
    text of an audio file is its lines joined. *)
Definition sample_dirs : Dirs := {|
  videos_dir := Path false [lit "videos"];
  audios_dir := Path false [lit "audios"];
  transcriptions_dir := Path false [lit "transcriptions"]
|}.

Definition sample_tools : Tools := {|
  librosa_load k :=
    match k with File c => inr c | Dir => inl IsADirectoryError end;
  whisper_transcribe k :=
    match k with File c => inr (concat c) | Dir => inl IsADirectoryError end
|}.

(** A disk with one video and one audio file. *)
Definition sample_state : state :=
  State []
    (list_to_map
       [(Path false [lit "videos"], Dir);
        (Path false [lit "videos"; lit "a.mkv"], File [lit "la"]);
        (Path false [lit "audios"], Dir);
        (Path false [lit "audios"; lit "b.wav"], File [lit " Uno. Dos. "])]).

End Transcribir.

(** * Properties *)

(** ** The matcher *)

Lemma star_inv {A} p s (k : list N → option A) x :
  star p s k = Some x → ∃ s', k s' = Some x.
Proof.
  induction s as [|c s IH]; simpl; [eauto|].
  destruct (p c); [|eauto].
  destruct (star p s k) eqn:E; [|eauto].
  intros [= <-]. auto.
Qed.

Lemma rmatch_inv {A} r : ∀ s g (k : list N → caps → option A) x,
  rmatch r s g k = Some x →
  ∃ s' g', k s' g' = Some x
           ∧ (∀ j, is_Some (g j) → is_Some (g' j))
           ∧ (∀ i, sets i r = true → is_Some (g' i)).
Proof.
  induction r as [|c|p|r1 IH1 r2 IH2|r1 IH1|p|p|i r1 IH1]; intros s g k x; simpl.
  - intros E. exists s, g. naive_solver.
  - destruct s as [|y s]; [done|]. destruct (y =? c); [|done].
    intros E. exists s, g. naive_solver.
  - destruct s as [|y s]; [done|]. destruct (p y); [|done].
    intros E. exists s, g. naive_solver.
  - intros E. apply IH1 in E as (s1 & g1 & E & Hk1 & Hs1).
    apply IH2 in E as (s2 & g2 & E & Hk2 & Hs2).
    exists s2, g2. split; [done|]. split; [naive_solver|].
    intros i [Hi|Hi]%orb_true_iff; naive_solver.
  - destruct (rmatch r1 s g k) eqn:E1.
    + intros [= <-]. apply IH1 in E1 as (s1 & g1 & E & Hk1 & _).
      exists s1, g1. naive_solver.
    + intros E. exists s, g. naive_solver.
  - intros (s' & E)%star_inv. exists s', g. naive_solver.
  - destruct s as [|y s]; [done|]. destruct (p y); [|done].
    intros (s' & E)%star_inv. exists s', g. naive_solver.
  - intros E. apply IH1 in E as (s1 & g1 & E & Hk1 & Hs1).
    exists s1, (set_cap i (take (length s - length s1) s) g1).
    split; [done|]. unfold set_cap. split.
    + intros j Hj. destruct (Nat.eqb j i); [eauto|auto].
    + intros j [Hj|Hj]%orb_true_iff.
      * apply Nat.eqb_eq in Hj as ->. rewrite Nat.eqb_refl. eauto.
      * destruct (Nat.eqb j i); [eauto|auto].
Qed.

(** A successful [re.match] fills every group that the pattern cannot skip. *)
Lemma re_match_sets r s g i :
  re_match r s = Some g → sets i r = true → is_Some (g i).
Proof.
  intros (s' & g' & [= <-] & _ & Hs)%rmatch_inv. auto.
Qed.

Section Facts.
Context `{UnicodeDB} `{Paths} `{Converter}.

Lemma PATTERN_message line g :
  re_match PATTERN line = Some g → is_Some (g 5%nat).
Proof. intros E. by apply (re_match_sets _ _ _ _ E). Qed.

Lemma FILENAME_PATTERN_name s g :
  re_match FILENAME_PATTERN s = Some g → is_Some (g 1%nat).
Proof. intros E. by apply (re_match_sets _ _ _ _ E). Qed.

(** The two [if]s of the loop body never both fire. *)
Lemma opens_names_exclusive char message :
  opens_tema char message = true → names_file char message = false.
Proof.
  unfold opens_tema, names_file.
  destruct (truthy char); simpl; [|done].
  rewrite !andb_false_r. done.
Qed.

Lemma loop_body_classify ts line w :
  loop_body ts line w = on_event ts (classify line) w.
Proof.
  unfold loop_body, classify.
  destruct (re_match PATTERN line) as [g|] eqn:E; [|done].
  destruct (PATTERN_message _ _ E) as [message ->]. simpl.
  destruct (opens_tema (g 1%nat) message) eqn:Ho.
  - rewrite (opens_names_exclusive _ _ Ho). done.
  - unfold bind at 1. simpl.
    destruct (names_file (g 1%nat) message); [|done].
    destruct (re_match FILENAME_PATTERN (strip message)) as [g'|] eqn:E'; [|done].
    destruct (FILENAME_PATTERN_name _ _ E') as [filename ->]. done.
Qed.

End Facts.

(** ** The grouping loop *)

Lemma emit_nil w : emit [] w = w.
Proof. destruct w. unfold emit, set_stdout. simpl. by rewrite app_nil_r. Qed.

Lemma emit_emit a b w : emit b (emit a w) = emit (a ++ b) w.
Proof. destruct w. unfold emit, set_stdout. simpl. by rewrite app_assoc. Qed.

Lemma absorb_nil ts : absorb ts [] = ts.
Proof.
  unfold absorb. destruct (last ts) as [t|] eqn:E.
  - apply last_Some in E as [ts' ->].
    rewrite removelast_last, app_nil_r. by destruct t.
  - by apply last_None in E as ->.
Qed.

Lemma absorb_snoc ts t fs :
  absorb (ts ++ [t]) fs = ts ++ [Tema (title t) (files t ++ fs)].
Proof. unfold absorb. by rewrite last_snoc, removelast_last. Qed.

Section GroupingFacts.
Context `{UnicodeDB} `{Paths}.

(** The loop does to [temas] what [grouped] says, and touches nothing but
    the standard output. *)
Lemma for_acc_loop_body lines : ∀ ts w,
  for_acc loop_body lines ts w
  = ((grouped ts lines).1, emit (grouped ts lines).2 w).
Proof.
  induction lines as [|l rest IH]; intros ts w.
  - unfold grouped. simpl. rewrite absorb_nil, app_nil_r.
    destruct ts; simpl; by rewrite emit_nil.
  - simpl. unfold bind. rewrite loop_body_classify.
    unfold grouped. simpl. destruct (classify l) as [m|f|]; simpl.
    + rewrite IH. unfold grouped.
      destruct (ts ++ [_]) eqn:E; [by destruct ts|]. rewrite <- E. clear E.
      rewrite absorb_snoc, absorb_nil. simpl.
      replace (emit _ (set_stdout _ w))
        with (emit (Appending (replace_char SLASH 95 m) :: announced rest) w)
        by (destruct w; unfold emit, set_stdout; simpl; by rewrite <- app_assoc).
      rewrite <- app_assoc. simpl.
      destruct (leading rest); by destruct ts.
    + unfold append_to_last. destruct (last ts) as [t|] eqn:E.
      * apply last_Some in E as [ts' ->]. rewrite removelast_last.
        unfold ret. rewrite IH. unfold grouped.
        rewrite !absorb_snoc. simpl. rewrite <- (app_assoc (files t)). simpl.
        destruct (ts' ++ [_]) eqn:E; [by destruct ts'|].
        destruct (ts' ++ [t]) eqn:E'; [by destruct ts'|].
        by destruct (leading rest).
      * apply last_None in E as ->. simpl. by rewrite emit_nil.
    + unfold ret. rewrite IH. done.
Qed.

End GroupingFacts.

(** ** What a piece of the script leaves alone *)

Lemma keeps_ret {A B} (f : world → A) (b : B) : keeps f (ret b).
Proof. done. Qed.

Lemma keeps_raise {A B} (f : world → A) e : keeps f (raise (A:=B) e).
Proof. done. Qed.

Lemma keeps_sys_exit {A B} (f : world → A) : keeps f (sys_exit (A:=B)).
Proof. done. Qed.

Lemma keeps_get {A B} (f : world → A) (g : world → B) : keeps f (get g).
Proof. done. Qed.

Lemma keeps_bind {A B C} (f : world → A) (c : M B) (k : B → M C) :
  keeps f c → (∀ b, keeps f (k b)) → keeps f (bind c k).
Proof.
  intros Hc Hk w. unfold bind. specialize (Hc w).
  destruct (c w) as [[b| |e] w']; simpl in *; [|done..].
  by rewrite Hk.
Qed.

Lemma keeps_for_acc {A X S} (f : world → A) (body : S → X → M S) xs :
  (∀ acc x, keeps f (body acc x)) → ∀ acc, keeps f (for_acc body xs acc).
Proof.
  intros Hb. induction xs as [|x xs IH]; intros acc; simpl.
  - apply keeps_ret.
  - apply keeps_bind; auto.
Qed.

Lemma keeps_for_each {A X} (f : world → A) (body : X → M unit) xs :
  (∀ x, keeps f (body x)) → keeps f (for_each body xs).
Proof. intros Hb. apply keeps_for_acc. auto. Qed.

Lemma keeps_pickle_print m : keeps pickle (print m).
Proof. done. Qed.

Lemma keeps_zips_print m : keeps zips (print m).
Proof. done. Qed.

Lemma keeps_disk_print m : keeps disk (print m).
Proof. done. Qed.

Lemma keeps_pickle_fs_call f : keeps pickle (fs_call f).
Proof. intros w. unfold fs_call. by destruct (f (disk w)). Qed.

Lemma keeps_zips_fs_call f : keeps zips (fs_call f).
Proof. intros w. unfold fs_call. by destruct (f (disk w)). Qed.

Lemma keeps_pickle_put_zips (f : world → gmap path archive) :
  keeps pickle (put (fun w => set_zips (f w) w)).
Proof. done. Qed.

Create HintDb keeps.
#[export] Hint Resolve keeps_ret keeps_raise keeps_sys_exit keeps_get
  keeps_pickle_print keeps_zips_print keeps_disk_print
  keeps_pickle_fs_call keeps_zips_fs_call keeps_pickle_put_zips : keeps.

Ltac keeps_step :=
  first
    [ apply keeps_for_each; intros ?
    | apply keeps_bind; [|intros ?]
    | match goal with |- keeps _ (if ?b then _ else _) => destruct b end
    | match goal with |- keeps _ (match ?x with _ => _ end) => destruct x end
    | solve [auto with keeps] ].

Section PlacementFrame.
Context `{UnicodeDB} `{Paths} `{Converter}.

Lemma keeps_pickle_place_file t file : keeps pickle (place_file t file).
Proof. unfold place_file. repeat keeps_step. Qed.

Lemma keeps_zips_place_file t file : keeps zips (place_file t file).
Proof. unfold place_file. repeat keeps_step. Qed.


Lemma keeps_zips_place_tema t : keeps zips (place_tema t).
Proof.
  unfold place_tema, ensure_folder. repeat keeps_step.
Qed.

Lemma keeps_pickle_move_zips : keeps pickle move_zips.
Proof. unfold move_zips, move_zip. repeat keeps_step. Qed.

Lemma keeps_pickle_extract_zips : keeps pickle extract_zips.
Proof. unfold extract_zips. repeat keeps_step. Qed.

(** The engine, with the loading and the grouping loop evaluated. *)
Lemma engine_unfold lines w :
  engine lines w =
    let w1 := emit (load_output w) w in
    if Nat.eqb (loaded_index w) (length lines) then (Exited, emit [NoNewLines] w1)
    else
      let g := grouped (loaded_temas w) (window w lines) in
      match g.1 with
      | Done ts =>
          for_each place_tema (List.filter has_files ts)
            (set_pickle (Some (Resume (length lines) (List.filter has_files ts)))
                        (emit g.2 w1))
      | Exited => (Exited, emit g.2 w1)
      | Raised e => (Raised e, emit g.2 w1)
      end.
Proof.
  unfold engine, load, loaded_index, loaded_temas, load_output, window.
  destruct w as [out [r|] d z]; cbn [bind get pickle fst snd print ret].
  - fold (emit [LoadingPickle] (World out (Some r) d z)).
    destruct (Nat.eqb (last_line r) (length lines)); [reflexivity|].
    unfold bind at 1. rewrite for_acc_loop_body.
    destruct (grouped _ _) as [[ts| |e] o]; reflexivity.
  - rewrite emit_nil.
    destruct (Nat.eqb 23 (length lines)); [reflexivity|].
    unfold bind at 1. rewrite for_acc_loop_body.
    destruct (grouped _ _) as [[ts| |e] o]; reflexivity.
Qed.

End PlacementFrame.

(** ** The line matcher *)

Section MatcherClaims.
Context {db : UnicodeDB} {dirs : Paths}.

(** C8.  Matching a line is a total function with three outcomes: the two
    [if]s of the loop body do to [temas] exactly what the outcome
    [classify line] prescribes, whatever [temas] and the world are; the
    matching itself never raises (the one exception the loop body can raise
    is the [IndexError] of [temas[-1]] on an empty list, for an attachment);
    and a marker line, one that matches [PATTERN] with its leading U+200E,
    whose message does not match [FILENAME_PATTERN] is a non-match and
    leaves [temas] alone. *)
Theorem line_matcher_total line :
  (∀ ts w, loop_body ts line w = on_event ts (classify line) w)
  ∧ ((∃ m, classify line = Content m) ∨ (∃ f, classify line = Attachment f)
     ∨ classify line = NonMatch)
  ∧ (∀ ts w e, (loop_body ts line w).1 = Raised e →
       e = IndexError ∧ ts = [] ∧ ∃ f, classify line = Attachment f)
  ∧ (∀ g message,
       re_match PATTERN line = Some g → g 5%nat = Some message →
       truthy (g 1%nat) = true →
       re_match FILENAME_PATTERN (strip message) = None →
       classify line = NonMatch ∧ ∀ ts w, loop_body ts line w = (Done ts, w)).
Proof.
  split; [intros; apply loop_body_classify|].
  split; [destruct (classify line); eauto|].
  split.
  - intros ts w e. rewrite loop_body_classify.
    destruct (classify line) as [m|f|]; simpl; [done| |done].
    unfold append_to_last. destruct (last ts) eqn:E; [done|].
    apply last_None in E. intros [= <-]. eauto.
  - intros g message Eg Em Hc Ef.
    assert (classify line = NonMatch) as Hn.
    { unfold classify. rewrite Eg, Em. simpl.
      unfold opens_tema. rewrite Hc, andb_false_r.
      rewrite Ef. by destruct (names_file _ _). }
    split; [done|]. intros ts w. by rewrite loop_body_classify, Hn.
Qed.

Lemma leading_no_content_snoc pre l :
  (∀ f, classify l ≠ Attachment f) → leading (pre ++ [l]) = leading pre.
Proof.
  intros Hl. induction pre as [|x pre IH]; simpl.
  - destruct (classify l); [done|naive_solver|done].
  - destruct (classify x); [done|by rewrite IH|done].
Qed.

Lemma opened_snoc_content pre l m :
  classify l = Content m →
  opened (pre ++ [l]) = opened pre ++ [Tema (replace_char SLASH 95 m) []].
Proof.
  intros Hl. induction pre as [|x pre IH]; simpl.
  - by rewrite Hl.
  - rewrite IH, leading_no_content_snoc by (rewrite Hl; done).
    by destruct (classify x).
Qed.

(** C1 (amended).  Every attachment marker goes to the last tema of the
    list at that moment: the files named between a content line and the
    next one go, in order, to the tema that content line opened, and the
    files named before the first content line of the window go to the last
    tema loaded from [pickle.pkl]. *)
Theorem attachment_joins_last_tema ts lines w :
  ts ≠ [] ∨ leading lines = [] →
  for_acc loop_body lines ts w
  = (Done (absorb ts (leading lines) ++ opened lines), emit (announced lines) w).
Proof.
  intros Hts. rewrite for_acc_loop_body. unfold grouped.
  destruct ts as [|t ts]; [|done].
  destruct Hts as [Hts | ->]; done.
Qed.

End MatcherClaims.

Lemma line_matcher_total_witness :
  @classify Sample.tables (Sample.torn "note1.opus") = NonMatch.
Proof.
  pose proof (@line_matcher_total Sample.tables Sample.dirs
                (Sample.torn "note1.opus")) as (_ & _ & _ & Hm).
  refine (proj1 (Hm (default no_caps
                       (@re_match (@PATTERN Sample.tables)
                          (Sample.torn "note1.opus")))
                    ([LRM] ++ lit "<attached: note1.opus") _ _ _ _));
    vm_compute; reflexivity.
Defined.

Lemma attachment_joins_last_tema_witness :
  @for_acc _ _ (@loop_body Sample.tables Sample.dirs)
    [Sample.sent "b.opus"; Sample.said "B"; Sample.sent "c.opus"]
    [Tema (lit "A") [Sample.in_dump "a.opus"]] (Sample.fresh [])
  = (Done [Tema (lit "A") [Sample.in_dump "a.opus"; Sample.in_dump "b.opus"];
           Tema (lit "B") [Sample.in_dump "c.opus"]],
     emit [Appending (lit "B")] (Sample.fresh [])).
Proof.
  rewrite (@attachment_joins_last_tema Sample.tables Sample.dirs)
    by (left; discriminate).
  vm_compute. reflexivity.
Defined.

(** C1, as stated, fails: a run resumes at line 25 of a 26-line log with
    the tema [A] loaded from [pickle.pkl]; its window is one attachment
    marker and holds no content line, yet the file is not dropped: it is
    appended to the loaded tema. *)
Lemma orphan_attachment_joins_loaded_tema :
  window (Sample.resumed 25 [Sample.tema_A] []) Sample.log_A_b
  = [Sample.sent "b.opus"]
  ∧ @classify Sample.tables (Sample.sent "b.opus") = Attachment (lit "b.opus")
  ∧ pickle
      (@engine Sample.tables Sample.dirs Sample.log_A_b
         (Sample.resumed 25 [Sample.tema_A] [])).2
    = Some (Resume 26 [Tema (lit "A")
                         [Sample.in_dump "a.opus"; Sample.in_dump "b.opus"]]).
Proof. vm_compute. done. Qed.

(** ** The engine: filter, resume index, repeated runs *)

Lemma filter_has_files_Forall ts :
  Forall (fun t => files t ≠ []) (List.filter has_files ts).
Proof.
  apply List.Forall_forall. intros t [_ Ht]%List.filter_In.
  unfold has_files in Ht. by destruct (files t).
Qed.

Lemma filter_has_files_drops ts t :
  files t = [] → t ∉ List.filter has_files ts.
Proof.
  intros Ht [_ Hin]%list_elem_of_In%List.filter_In.
  unfold has_files in Hin. by rewrite Ht in Hin.
Qed.

Section EngineClaims.
Context {db : UnicodeDB} {dirs : Paths}.

(** C7.  When a run gets past the grouping loop, the list it writes to
    [pickle.pkl] and hands to the placement loop is the loop's list without
    the temas that have no files: no tema of that list has an empty file
    list, and the tema opened by the last line of the window, which no
    attachment can have followed, is among the discarded ones. *)
Theorem no_empty_tema_in_output lines w ts w' :
  loaded_index w ≠ length lines →
  for_acc loop_body (window w lines) (loaded_temas w) (emit (load_output w) w)
  = (Done ts, w') →
  engine lines w
  = for_each place_tema (List.filter has_files ts)
      (set_pickle (Some (Resume (length lines) (List.filter has_files ts))) w')
  ∧ Forall (fun t => files t ≠ []) (List.filter has_files ts)
  ∧ (∀ t, files t = [] → t ∉ List.filter has_files ts)
  ∧ (∀ pre l m, window w lines = pre ++ [l] → classify l = Content m →
       ∃ ts0, ts = ts0 ++ [Tema (replace_char SLASH 95 m) []]
              ∧ List.filter has_files ts = List.filter has_files ts0).
Proof.
  intros Hn Hloop. rewrite for_acc_loop_body in Hloop.
  injection Hloop as Hts Hw'.
  split; [|split; [apply filter_has_files_Forall|split]].
  - rewrite engine_unfold. cbv zeta.
    apply Nat.eqb_neq in Hn. rewrite Hn, Hts, Hw'. done.
  - intros t. apply filter_has_files_drops.
  - intros pre l m Hwin Hl. rewrite Hwin in Hts. unfold grouped in Hts.
    rewrite (opened_snoc_content _ _ _ Hl) in Hts.
    rewrite leading_no_content_snoc in Hts by (rewrite Hl; done).
    exists (absorb (loaded_temas w) (leading pre) ++ opened pre).
    assert (ts = (absorb (loaded_temas w) (leading pre) ++ opened pre)
                 ++ [Tema (replace_char SLASH 95 m) []]) as ->.
    { destruct (loaded_temas w), (leading pre); simpl in Hts; try done;
        injection Hts as <-; by rewrite <- ?app_assoc. }
    split; [done|]. rewrite List.filter_app. simpl. by rewrite app_nil_r.
Qed.

Lemma engine_no_new_lines lines w :
  loaded_index w = length lines →
  engine lines w = (Exited, emit (load_output w ++ [NoNewLines]) w).
Proof.
  intros E. rewrite engine_unfold. cbv zeta.
  apply Nat.eqb_eq in E. by rewrite E, emit_emit.
Qed.




End EngineClaims.

Lemma no_empty_tema_in_output_witness :
  ∃ ts0, [Sample.tema_A; Tema (lit "B") []]
         = ts0 ++ [Tema (replace_char SLASH 95 (lit "B")) []]
         ∧ List.filter has_files [Sample.tema_A; Tema (lit "B") []]
           = List.filter has_files ts0.
Proof.
  refine (proj2 (proj2 (proj2
            (@no_empty_tema_in_output Sample.tables Sample.dirs
               Sample.log_A_B (Sample.fresh ["a.opus"%string])
               [Sample.tema_A; Tema (lit "B") []]
               (emit [Appending (lit "A"); Appending (lit "B")]
                     (Sample.fresh ["a.opus"%string])) _ _)))
            [Sample.said "A"; Sample.sent "a.opus"] (Sample.said "B") (lit "B")
            _ _);
    vm_compute; first [reflexivity | discriminate].
Defined.




(** ** Missing inputs *)

Lemma bind_assoc {A B C} (c : M A) (k : A → M B) (k' : B → M C) w :
  bind (bind c k) k' w = bind c (fun a => bind (k a) k') w.
Proof. unfold bind. by destruct (c w) as [[a| |e] w']. Qed.

Section RunClaims.
Context {db : UnicodeDB} {dirs : Paths} {conv : Converter}.

(** C9.  With no archive matching [*profe.zip] in the source directory the
    script prints its notice and exits at once; with no chat log in the dump
    directory once the archives are moved and unpacked it prints its notice
    and exits there.  Either way [pickle.pkl] is as it was. *)
Theorem missing_input_aborts w :
  (glob (disk w) ZIP_SOURCE_DIR (lit "profe.zip") = [] →
     main w = (Exited, emit [NoFilesFound ZIP_SOURCE_DIR] w)
     ∧ pickle (main w).2 = pickle w)
  ∧ (∀ w1, (move_zips ;;; extract_zips) w = (Done tt, w1) →
       exists_ (disk w1) CHAT_FILE = false →
       main w = (Exited, emit [NoChatFile CHAT_FILE] w1)
       ∧ pickle (main w).2 = pickle w).
Proof.
  split.
  - intros Hg.
    assert (main w = (Exited, emit [NoFilesFound ZIP_SOURCE_DIR] w)) as ->.
    { unfold main, move_zips. unfold bind at 1 2. simpl. by rewrite Hg. }
    by destruct w.
  - intros w1 Hrun Hchat.
    assert (main w = (Exited, emit [NoChatFile CHAT_FILE] w1)) as ->.
    { unfold main. rewrite <- bind_assoc. unfold bind at 1. rewrite Hrun.
      unfold read_chat. unfold bind at 1 2. simpl. by rewrite Hchat. }
    split; [done|].
    assert (keeps pickle (move_zips ;;; extract_zips)) as Hk.
    { apply keeps_bind; [apply keeps_pickle_move_zips|].
      intros _. apply keeps_pickle_extract_zips. }
    specialize (Hk w). rewrite Hrun in Hk. by destruct w1.
Qed.

End RunClaims.

Lemma missing_input_aborts_witness :
  (@main Sample.tables Sample.dirs Sample.idle (Sample.fresh [])).1 = Exited
  ∧ (@main Sample.tables Sample.dirs Sample.idle
       (Sample.waiting [(lit "a.opus", [])])).1 = Exited.
Proof.
  split.
  - rewrite (proj1 (proj1 (@missing_input_aborts Sample.tables Sample.dirs
                             Sample.idle (Sample.fresh []))
                      ltac:(vm_compute; reflexivity))).
    reflexivity.
  - rewrite (proj1 (proj2 (@missing_input_aborts Sample.tables Sample.dirs
                             Sample.idle (Sample.waiting [(lit "a.opus", [])]))
                      (@bind _ _ (@move_zips Sample.dirs)
                         (fun _ => @extract_zips Sample.dirs)
                         (Sample.waiting [(lit "a.opus", [])])).2
                      ltac:(vm_compute; reflexivity)
                      ltac:(vm_compute; reflexivity))).
    reflexivity.
Defined.

(** ** Paths and moves *)

Lemma split_on_absent sep w : sep ∉ w → split_on sep w = [w].
Proof.
  induction w as [|c w IH]; intros Hw; simpl; [done|].
  apply not_elem_of_cons in Hw as [Hc Hw].
  destruct (N.eqb_spec c sep); [done|]. by rewrite IH.
Qed.

Lemma parse_component w : component w → parse_path w = Path false [w].
Proof.
  intros (Hne & Hdot & Hs). unfold parse_path.
  rewrite split_on_absent by done. cbn [List.filter]. unfold str_eqb.
  rewrite (bool_decide_eq_false_2 (w = [])) by done.
  rewrite (bool_decide_eq_false_2 (w = [DOT])) by done.
  cbn [negb andb]. f_equal.
  destruct w as [|c w]; [done|]. cbn [starts_with].
  apply not_elem_of_cons in Hs as [Hc _].
  destruct (N.eqb_spec SLASH c); [done|done].
Qed.

Lemma join_component p w :
  component w → p // w = Path (absolute p) (parts p ++ [w]).
Proof. intros Hw. unfold joinpath. by rewrite parse_component. Qed.

Lemma name_join p w : component w → name (p // w) = w.
Proof.
  intros Hw. rewrite join_component by done. unfold name. simpl.
  by rewrite last_snoc.
Qed.

Lemma name_component p : wf_path p → name p ≠ [] → component (name p).
Proof.
  unfold wf_path, name. intros Hwf Hn.
  destruct (last (parts p)) as [w|] eqn:E; [|done]. simpl.
  apply last_Some in E as [ps E]. rewrite E in Hwf.
  by apply Forall_app in Hwf as [_ ?%Forall_inv].
Qed.

Lemma suffix_same_name p q : name p = name q → suffix p = suffix q.
Proof. unfold suffix. by intros ->. Qed.

Lemma with_suffix_name p suf :
  name p ≠ [] →
  ∃ q, with_suffix p suf = Some q ∧ name q = stem p ++ suf.
Proof.
  intros Hn. unfold with_suffix. destruct (name p) eqn:E; [done|].
  eexists. split; [done|]. unfold name at 1. simpl.
  rewrite last_snoc. simpl. unfold stem. by rewrite E.
Qed.

Section PlaceFile.
Context {db : UnicodeDB} {dirs : Paths}.

Lemma place_file_unfold t file w :
  wf_path file → name file ≠ [] →
  place_file t file w
  = if exists_ (disk w) (prospective t file) then (Done tt, w)
    else (print (Adding file (folder t)) ;;;
          fs_call (fun d => shutil_move d file (folder t))) w.
Proof.
  intros Hwf Hn. unfold place_file, prospective, prospective_name, folder.
  rewrite (suffix_same_name (PROFE_SORTED_DIR // title t // name file) file)
    by (apply name_join, name_component; done).
  change (str_eqb (suffix file) OGG || str_eqb (suffix file) OPUS)
    with (convertible file).
  destruct (with_suffix_name file WAV Hn) as (q & -> & ->).
  unfold bind at 1.
  destruct (convertible file); simpl; unfold bind at 1, get; simpl;
    destruct (exists_ _ _); reflexivity.
Qed.
End PlaceFile.

Lemma below_refl p : below p p = true.
Proof.
  unfold below. rewrite bool_decide_eq_true_2 by done.
  rewrite bool_decide_eq_true_2; [done|]. by rewrite firstn_all.
Qed.

Lemma below_inv p q :
  below p q = true →
  absolute q = absolute p ∧ parts q = parts p ++ drop (length (parts p)) (parts q).
Proof.
  unfold below. intros [Ha Hp]%andb_true_iff.
  apply bool_decide_eq_true in Ha. apply bool_decide_eq_true in Hp.
  split; [done|]. rewrite <- Hp at 1. by rewrite take_drop.
Qed.

Lemma reroot_self src dst : reroot src dst src = dst.
Proof. unfold reroot. rewrite drop_all, app_nil_r. by destruct dst. Qed.

Lemma reroot_inj_at src dst q :
  below src q = true → reroot src dst q = dst → q = src.
Proof.
  intros [Ha Hp]%below_inv. destruct dst as [da dp]. intros [= Hd].
  simpl in *.
  assert (drop (length (parts src)) (parts q) = []) as Hnil.
  { apply (app_inv_head dp). by rewrite app_nil_r. }
  rewrite Hnil, app_nil_r in Hp. destruct q, src; simpl in *; congruence.
Qed.

Lemma reroot_below src dst q : below dst (reroot src dst q) = true.
Proof.
  unfold below, reroot. simpl. rewrite bool_decide_eq_true_2 by done.
  rewrite bool_decide_eq_true_2; [done|].
  by rewrite take_app_length.
Qed.

(** After a rename the destination holds what the source held. *)
Lemma rename_lookup_dst d src dst k :
  d !! src = Some k → rename d src dst !! dst = Some k.
Proof.
  intros Hsrc. unfold rename. apply lookup_union_Some_l.
  apply elem_of_list_to_map_1'.
  - intros y Hy. apply list_elem_of_In, in_map_iff in Hy as (e & He & Hin).
    rewrite <- list_elem_of_In in Hin.
    apply list_elem_of_filter in Hin as [Hb Hin].
    injection He as Hr <-.
    apply reroot_inj_at in Hr; [|done].
    destruct e as [q y]. simpl in *. subst q.
    apply elem_of_map_to_list in Hin. congruence.
  - apply list_elem_of_In, in_map_iff. exists (src, k). simpl.
    split; [by rewrite reroot_self|].
    apply list_elem_of_In, list_elem_of_filter. split.
    + apply below_refl.
    + by apply elem_of_map_to_list.
Qed.

(** After a rename nothing is left at the source, unless the source lay at
    or below the destination. *)
Lemma rename_lookup_src d src dst :
  below dst src = false → rename d src dst !! src = None.
Proof.
  intros Hb. unfold rename. apply lookup_union_None. split.
  - apply not_elem_of_list_to_map. 
    intros (e & He & Hin)%list_elem_of_fmap.
    apply list_elem_of_In, in_map_iff in Hin as (e' & <- & _). simpl in He.
    rewrite He in Hb. by rewrite reroot_below in Hb.
  - apply map_lookup_filter_None. right. intros k _. simpl.
    by rewrite below_refl.
Qed.

Lemma stat_file d p c :
  stat d p = Some (File c) → d !! norm p = Some (File c).
Proof. unfold stat. by destruct (parts (norm p)). Qed.

Lemma stat_absent d p :
  exists_ d p = false → stat d p = d !! norm p.
Proof. unfold exists_, stat. by destruct (parts (norm p)). Qed.

(** A file moved into a directory is there afterwards, under its own name
    and with its content, and gone from where it was. *)
Lemma shutil_move_file d file dir c d' :
  stat d file = Some (File c) → isdir d dir = true →
  shutil_move d file dir = inr d' →
  stat d' (dir // name file) = Some (File c)
  ∧ (below (norm (dir // name file)) (norm file) = false →
     stat d' file = None).
Proof.
  intros Hf Hdir. unfold shutil_move. rewrite Hdir, Hf. simpl.
  destruct (exists_ d (dir // name file)) eqn:Hdst; [done|].
  destruct (negb _); [done|]. intros [= <-].
  pose proof (stat_file _ _ _ Hf) as Hsrc. split.
  - unfold stat.
    destruct (parts (norm (dir // name file))) eqn:E.
    { unfold exists_, stat in Hdst. by rewrite E in Hdst. }
    by apply rename_lookup_dst.
  - intros Hb. unfold stat. destruct (parts (norm file)) eqn:E.
    { unfold stat in Hf. by rewrite E in Hf. }
    by apply rename_lookup_src.
Qed.

(** ** The placement loop *)



Lemma for_acc_app {X S} (body : S → X → M S) xs ys acc w :
  for_acc body (xs ++ ys) acc w
  = (acc' <- for_acc body xs acc ;; for_acc body ys acc') w.
Proof.
  revert acc w. induction xs as [|x xs IH]; intros acc w; simpl; [done|].
  unfold bind in *.
  destruct (body acc x w) as [[a| |e] w1]; [apply IH|done..].
Qed.



Lemma emit_stdout out w : stdout (emit out w) = stdout w ++ out.
Proof. by destruct w. Qed.

Lemma emit_neq m w : emit [m] w ≠ w.
Proof.
  intros E. apply (f_equal (fun x => length (stdout x))) in E.
  rewrite emit_stdout, length_app in E. simpl in E. lia.
Qed.

Section PlacementClaims.
Context {db : UnicodeDB} {dirs : Paths}.




Lemma move_in_stale t file w :
  exists_ (disk w) file = false →
  ∃ e, move_in t file w = (Raised e, emit [Adding file (folder t)] w).
Proof.
  intros Hf. unfold move_in, bind, print, fs_call. simpl.
  fold (emit [Adding file (folder t)] w).
  replace (disk (emit [Adding file (folder t)] w)) with (disk w) by by destruct w.
  unfold shutil_move.
  destruct (isdir (disk w) (folder t) && _); [eauto|].
  unfold exists_ in Hf. destruct (stat (disk w) file); [done|eauto].
Qed.


End PlacementClaims.

Lemma filter_has_files_all ts :
  Forall (fun t => files t ≠ []) ts → List.filter has_files ts = ts.
Proof.
  induction 1 as [|t ts Ht _ IH]; simpl; [done|].
  unfold has_files at 1. destruct (files t); [done|]. by rewrite IH.
Qed.


Section CarryClaims.
Context {db : UnicodeDB} {dirs : Paths}.



End CarryClaims.





(** ** Resuming *)

Section Resuming.
Context {db : UnicodeDB} {dirs : Paths}.

(** An attachment with no tema to go to: [temas[-1]] on the empty list. *)
Lemma orphan_on_empty_list_raises lines w :
  leading lines ≠ [] → for_acc loop_body lines [] w = (Raised IndexError, w).
Proof.
  intros Hl. rewrite for_acc_loop_body. unfold grouped.
  destruct (leading lines); [done|]. simpl. by rewrite emit_nil.
Qed.

Lemma filter_has_files_idem ts :
  List.filter has_files (List.filter has_files ts) = List.filter has_files ts.
Proof. apply filter_has_files_all, filter_has_files_Forall. Qed.

Lemma grouped_done ts lines :
  ts ≠ [] ∨ leading lines = [] →
  grouped ts lines
  = (Done (absorb ts (leading lines) ++ opened lines), announced lines).
Proof.
  unfold grouped. intros [Hts|Hl].
  - by destruct ts.
  - rewrite Hl. by destruct ts.
Qed.

Lemma grouped_filter ts1 W2 ts2 out :
  settled ts1 W2 →
  grouped ts1 W2 = (Done ts2, out) →
  ∃ ts2',
    grouped (List.filter has_files ts1) W2 = (Done ts2', out)
    ∧ List.filter has_files ts2' = List.filter has_files ts2.
Proof.
  unfold settled. intros Hs Hg.
  destruct (last ts1) as [t|] eqn:E.
  - apply last_Some in E as [ts' ->].
    rewrite grouped_done in Hg by (left; by destruct ts').
    injection Hg as <- <-. rewrite absorb_snoc, List.filter_app.
    destruct (has_files t) eqn:Ht; simpl; rewrite Ht.
    + rewrite grouped_done
        by (left; by destruct (List.filter has_files ts')).
      eexists. split; [done|]. rewrite absorb_snoc.
      by rewrite !List.filter_app, filter_has_files_idem.
    + destruct Hs as [|Hl]; [done|]. rewrite Hl, !app_nil_r.
      rewrite grouped_done by by right.
      eexists. split; [done|]. rewrite Hl, absorb_nil.
      rewrite !List.filter_app, filter_has_files_idem. simpl.
      unfold has_files in Ht. unfold has_files at 3. simpl.
      destruct (files t); [by rewrite app_nil_r|done].
  - apply last_None in E as ->. simpl. eauto.
Qed.

(** X8.  Where resuming does agree with a single run: the loop run on [W1],
    its list filtered as the save does, and then run on [W2], ends with the
    same temas with files as the loop run on [W1 ++ W2], provided the run on
    [W1] is settled. *)
Lemma resumed_grouping_agrees ts W1 W2 ts1 ts2 w w1 w2 :
  for_acc loop_body W1 ts w = (Done ts1, w1) →
  for_acc loop_body (W1 ++ W2) ts w = (Done ts2, w2) →
  settled ts1 W2 →
  ∃ ts2',
    for_acc loop_body W2 (List.filter has_files ts1) w1 = (Done ts2', w2)
    ∧ List.filter has_files ts2' = List.filter has_files ts2.
Proof.
  intros H1 H2 Hs. rewrite for_acc_app in H2. unfold bind in H2.
  rewrite H1 in H2. rewrite for_acc_loop_body in H2 |- *.
  destruct (grouped ts1 W2) as [r out] eqn:Hg. simpl in H2.
  injection H2 as -> <-.
  destruct (grouped_filter _ _ _ _ Hs Hg) as (ts2' & -> & Hf). eauto.
Qed.

End Resuming.

(** C2.  The script run on a log, then on the log grown, does not always end
    with the temas of a single run on the grown log.  Here the first run
    sees 26 lines, the last of them the message [B]; its tema has no file
    yet and is filtered out before the save.  The second run sees the
    attachment [b.jpg] that follows and appends it to the last tema it
    loaded, [A], where a single run puts it under [B]. *)
Theorem resume_loses_pending_tema :
  take 26 Sample.log_photos
  = Sample.header ++ [Sample.said "A"; Sample.sent "a.jpg"; Sample.said "B"]
  ∧ (@engine Sample.tables Sample.dirs (take 26 Sample.log_photos)
       (Sample.fresh ["a.jpg"; "b.jpg"]%string)).1 = Done tt
  ∧ pickle (@engine Sample.tables Sample.dirs (take 26 Sample.log_photos)
              (Sample.fresh ["a.jpg"; "b.jpg"]%string)).2
    = Some (Resume 26 [Tema (lit "A") [Sample.in_dump "a.jpg"]])
  ∧ (@engine Sample.tables Sample.dirs Sample.log_photos
       (@engine Sample.tables Sample.dirs (take 26 Sample.log_photos)
          (Sample.fresh ["a.jpg"; "b.jpg"]%string)).2).1 = Done tt
  ∧ pickle (@engine Sample.tables Sample.dirs Sample.log_photos
              (@engine Sample.tables Sample.dirs (take 26 Sample.log_photos)
                 (Sample.fresh ["a.jpg"; "b.jpg"]%string)).2).2
    = Some (Resume 27 [Tema (lit "A")
                         [Sample.in_dump "a.jpg"; Sample.in_dump "b.jpg"]])
  ∧ stat (disk (@engine Sample.tables Sample.dirs Sample.log_photos
                  (@engine Sample.tables Sample.dirs (take 26 Sample.log_photos)
                     (Sample.fresh ["a.jpg"; "b.jpg"]%string)).2).2)
         (Sample.in_sorted "A" "b.jpg") = Some (File [])
  ∧ pickle (@engine Sample.tables Sample.dirs Sample.log_photos
              (Sample.fresh ["a.jpg"; "b.jpg"]%string)).2
    = Some (Resume 27 [Tema (lit "A") [Sample.in_dump "a.jpg"];
                       Tema (lit "B") [Sample.in_dump "b.jpg"]])
  ∧ stat (disk (@engine Sample.tables Sample.dirs Sample.log_photos
                  (Sample.fresh ["a.jpg"; "b.jpg"]%string)).2)
         (Sample.in_sorted "B" "b.jpg") = Some (File []).
Proof. vm_compute. done. Qed.

(** * Further properties *)

(** ** The matcher is sound *)

Lemma star_sound {A} p s (k : list N → option A) x :
  star p s k = Some x →
  ∃ a s', s = a ++ s' ∧ Forall (fun c => p c = true) a ∧ k s' = Some x.
Proof.
  induction s as [|c s IH]; simpl.
  - intros E. exists [], []. auto.
  - destruct (p c) eqn:Hc.
    + destruct (star p s k) as [x0|] eqn:E.
      * intros [= <-]. destruct (IH eq_refl) as (a & s' & -> & Ha & Hk).
        exists (c :: a), s'. auto.
      * intros E'. exists [], (c :: s). auto.
    + intros E. exists [], (c :: s). auto.
Qed.

Lemma captured_by_refl r g : captured_by r g g.
Proof. intros i y E. auto. Qed.

Lemma rmatch_sound {A} r : ∀ s g (k : list N → caps → option A) x,
  rmatch r s g k = Some x →
  ∃ a s' g', s = a ++ s' ∧ matches r a ∧ captured_by r g g'
             ∧ k s' g' = Some x.
Proof.
  induction r as [|c|p|r1 IH1 r2 IH2|r1 IH1|p|p|i r1 IH1]; intros s g k x; simpl.
  - intros E. exists [], s, g.
    split; [done|]. split; [constructor|]. split; [apply captured_by_refl|done].
  - destruct s as [|y s]; [done|]. destruct (N.eqb_spec y c) as [->|]; [|done].
    intros E. exists [c], s, g.
    split; [done|]. split; [constructor|]. split; [apply captured_by_refl|done].
  - destruct s as [|y s]; [done|]. destruct (p y) eqn:Hy; [|done].
    intros E. exists [y], s, g.
    split; [done|]. split; [by constructor|].
    split; [apply captured_by_refl|done].
  - intros E. apply IH1 in E as (a1 & s1 & g1 & -> & M1 & C1 & E).
    apply IH2 in E as (a2 & s2 & g2 & -> & M2 & C2 & E).
    exists (a1 ++ a2), s2, g2. split; [by rewrite app_assoc|].
    split; [by constructor|]. split; [|done].
    intros i y Hy. destruct (C2 i y Hy) as [H1|(ri & Hin & Hm)].
    + destruct (C1 i y H1) as [|(ri & Hin & Hm)]; [by left|].
      right. exists ri. split; [|done]. simpl. apply elem_of_app. by left.
    + right. exists ri. split; [|done]. simpl. apply elem_of_app. by right.
  - destruct (rmatch r1 s g k) as [x0|] eqn:E1.
    + intros [= <-]. apply IH1 in E1 as (a & s' & g' & -> & M & C & E).
      exists a, s', g'. split; [done|]. split; [by apply matches_opt|]. done.
    + intros E. exists [], s, g.
      split; [done|]. split; [apply matches_opt_skip|].
      split; [apply captured_by_refl|done].
  - intros (a & s' & -> & Ha & E)%star_sound. exists a, s', g.
    split; [done|]. split; [by constructor|].
    split; [apply captured_by_refl|done].
  - destruct s as [|y s]; [done|]. destruct (p y) eqn:Hy; [|done].
    intros (a & s' & -> & Ha & E)%star_sound. exists (y :: a), s', g.
    split; [done|]. split; [constructor; [done|by constructor]|].
    split; [apply captured_by_refl|done].
  - intros E. apply IH1 in E as (a & s' & g' & -> & M & C & E).
    rewrite length_app, Nat.add_sub, take_app_length in E.
    exists a, s', (set_cap i a g'). split; [done|].
    split; [by constructor|]. split; [|done].
    intros j y. unfold set_cap. simpl.
    destruct (Nat.eqb j i) eqn:Hj.
    + intros [= <-]. right. exists r1. split; [|done].
      apply Nat.eqb_eq in Hj as ->. simpl. rewrite Nat.eqb_refl.
      apply elem_of_app. left. constructor.
    + intros Hy. destruct (C j y Hy) as [|(ri & Hin & Hm)]; [by left|].
      right. exists ri. split; [|done]. by apply elem_of_app; right.
Qed.

(** [re.match] only succeeds on a string that starts with a match of the
    pattern, and each group it returns holds a match of a sub-pattern that
    the group encloses. *)
Lemma re_match_sound r s g :
  re_match r s = Some g →
  (∃ a s', s = a ++ s' ∧ matches r a)
  ∧ ∀ i y, g i = Some y → ∃ ri, ri ∈ enclosed i r ∧ matches ri y.
Proof.
  intros (a & s' & g' & -> & M & C & [= <-])%rmatch_sound. split; [eauto|].
  intros i y Hy. by destruct (C i y Hy) as [|].
Qed.

Section MatcherExtras.
Context {db : UnicodeDB} {dirs : Paths}.

Lemma Forall_cls_dot_no_newline m :
  Forall (fun c => cls_dot c = true) m → NEWLINE ∉ m.
Proof.
  intros Hm Hin. rewrite List.Forall_forall in Hm.
  apply list_elem_of_In in Hin. by specialize (Hm _ Hin).
Qed.

Lemma PATTERN_message_no_newline line g m :
  re_match PATTERN line = Some g → g 5%nat = Some m → NEWLINE ∉ m.
Proof.
  intros [_ Hc]%re_match_sound Hm.
  destruct (Hc _ _ Hm) as (ri & Hin & M). simpl in Hin.
  apply list_elem_of_singleton in Hin as ->. inversion M; subst.
  by apply Forall_cls_dot_no_newline.
Qed.

Lemma FILENAME_PATTERN_name_no_newline s g f :
  re_match FILENAME_PATTERN s = Some g → g 1%nat = Some f → NEWLINE ∉ f.
Proof.
  intros [_ Hc]%re_match_sound Hf.
  destruct (Hc _ _ Hf) as (ri & Hin & M). simpl in Hin.
  apply list_elem_of_singleton in Hin as ->. inversion M; subst.
  by apply Forall_cls_dot_no_newline.
Qed.

Lemma PATTERN_marker line g y :
  re_match PATTERN line = Some g → g 1%nat = Some y → y = [LRM].
Proof.
  intros [_ Hc]%re_match_sound Hy.
  destruct (Hc _ _ Hy) as (ri & Hin & M). simpl in Hin.
  apply list_elem_of_singleton in Hin as ->. by inversion M.
Qed.

Lemma PATTERN_split : PATTERN = Cat (Opt (Grp 1 (Chr LRM))) PATTERN_tail.
Proof. reflexivity. Qed.

Lemma PATTERN_tail_not_LRM {A} rest g (k : list N → caps → option A) :
  rmatch PATTERN_tail (LRM :: rest) g k = None.
Proof. reflexivity. Qed.

(** Group 1 of [PATTERN] is truthy exactly on the lines that start with
    U+200E. *)
Lemma PATTERN_marker_iff line g :
  re_match PATTERN line = Some g → truthy (g 1%nat) = starts_with [LRM] line.
Proof.
  unfold re_match. rewrite PATTERN_split. cbn [rmatch].
  destruct line as [|c rest]; cbn [starts_with].
  - intros E. apply rmatch_sound in E as (a & s' & g' & _ & _ & C & [= ->]).
    destruct (g 1%nat) as [y|] eqn:Hy; [|done].
    destruct (C _ _ Hy) as [|(ri & Hin & _)]; [done|].
    simpl in Hin. by apply elem_of_nil in Hin.
  - rewrite (N.eqb_sym LRM c). destruct (N.eqb_spec c LRM) as [->|Hc].
    + rewrite PATTERN_tail_not_LRM.
      destruct (rmatch PATTERN_tail rest _ _) as [x|] eqn:E; [|done].
      intros [= ->]. pose proof E as E2.
      apply rmatch_inv in E as (s1 & g1 & [= ->] & Hk & _).
      apply rmatch_sound in E2 as (a & s2 & g2 & _ & _ & C & [= ->]).
      destruct (Hk 1%nat) as [y Hy]; [by eexists|]. rewrite Hy.
      destruct (C _ _ Hy) as [Hc|(ri & Hin & _)].
      { replace (length (LRM :: rest) - length rest)%nat with 1%nat in Hc
          by (simpl; lia).
        by injection Hc as <-. }
      simpl in Hin. by apply elem_of_nil in Hin.
    + intros E. apply rmatch_sound in E as (a & s' & g' & _ & _ & C & [= ->]).
      destruct (g 1%nat) as [y|] eqn:Hy; [|done].
      destruct (C _ _ Hy) as [|(ri & Hin & _)]; [done|].
      simpl in Hin. by apply elem_of_nil in Hin.
Qed.
End MatcherExtras.

Section LineExtras.
Context {db : UnicodeDB} {dirs : Paths}.

Lemma append_to_last_titles ts p ts' :
  append_to_last ts p = Some ts' → map title ts' = map title ts.
Proof.
  unfold append_to_last. destruct (last ts) as [t|] eqn:E; [|done].
  intros [= <-]. apply last_Some in E as [ts0 ->].
  by rewrite removelast_last, !map_app.
Qed.

(** X1.  What a line can do is decided by its first character.  A line
    that starts with U+200E never opens a tema and prints nothing: if the
    loop body returns, the titles are as they were.  A line that does not
    start with U+200E never touches the files of a tema and never raises:
    the loop body leaves [temas] alone or appends one new tema without
    files. *)
Theorem marker_decides_role line :
  (starts_with [LRM] line = true →
     ∀ ts w ts' w', loop_body ts line w = (Done ts', w') →
       map title ts' = map title ts ∧ w' = w)
  ∧ (starts_with [LRM] line = false →
     ∀ ts w, loop_body ts line w = (Done ts, w)
             ∨ ∃ m, loop_body ts line w
                    = (Done (ts ++ [Tema m []]), emit [Appending m] w)).
Proof.
  split; intros Hl ts w.
  - intros ts' w'. rewrite loop_body_classify. unfold classify.
    destruct (re_match PATTERN line) as [g|] eqn:E; [|by intros [= <- <-]].
    unfold opens_tema. rewrite (PATTERN_marker_iff _ _ E), Hl, andb_false_r.
    destruct (names_file _ _); [|by intros [= <- <-]].
    destruct (re_match FILENAME_PATTERN _); [|by intros [= <- <-]].
    simpl. destruct (append_to_last _ _) as [ts0|] eqn:Ea; [|done].
    intros [= <- <-]. split; [|done]. by eapply append_to_last_titles.
  - rewrite loop_body_classify. unfold classify.
    destruct (re_match PATTERN line) as [g|] eqn:E; [|by left].
    unfold names_file. rewrite (PATTERN_marker_iff _ _ E), Hl.
    destruct (opens_tema _ _); [|by left]. right. eauto.
Qed.

(** X2.  A line whose message holds the word [omitted] changes nothing,
    with or without the leading U+200E, whatever else the message holds. *)
Theorem omitted_line_changes_nothing line g m :
  re_match PATTERN line = Some g → g 5%nat = Some m →
  contains (lit "omitted") m = true →
  ∀ ts w, loop_body ts line w = (Done ts, w).
Proof.
  intros E Em Ho ts w. rewrite loop_body_classify. unfold classify.
  rewrite E, Em. simpl. unfold opens_tema, names_file. rewrite Ho. simpl.
  by rewrite andb_false_r.
Qed.

Lemma replace_char_absent a b s : a ≠ b → a ∉ replace_char a b s.
Proof.
  intros Hab. unfold replace_char. intros Hin%list_elem_of_In.
  apply in_map_iff in Hin as (c & Hc & _).
  destruct (N.eqb_spec c a); congruence.
Qed.

Lemma replace_char_keeps_absent a b c s :
  c ≠ b → c ∉ s → c ∉ replace_char a b s.
Proof.
  intros Hcb Hs. unfold replace_char. intros Hin%list_elem_of_In.
  apply in_map_iff in Hin as (x & Hx & Hin%list_elem_of_In).
  destruct (N.eqb_spec x a); congruence.
Qed.

Lemma classify_content_no_newline line m :
  classify line = Content m → NEWLINE ∉ m.
Proof.
  unfold classify. destruct (re_match PATTERN line) as [g|] eqn:E; [|done].
  destruct (PATTERN_message _ _ E) as [m' Hm]. rewrite Hm. simpl.
  destruct (opens_tema _ _).
  - intros [= <-]. by eapply PATTERN_message_no_newline.
  - destruct (names_file _ _); [|done].
    by destruct (re_match FILENAME_PATTERN _).
Qed.

Lemma parse_path_plain s :
  SLASH ∉ s →
  parse_path s
  = Path false (if str_eqb s [] || str_eqb s [DOT] then [] else [s]).
Proof.
  intros Hs. unfold parse_path. rewrite split_on_absent by done.
  cbn [List.filter]. f_equal.
  - destruct s as [|c s]; [done|]. cbn [starts_with].
    apply not_elem_of_cons in Hs as [Hc _].
    by destruct (N.eqb_spec SLASH c).
  - by destruct (str_eqb s []), (str_eqb s [DOT]).
Qed.

(** X3.  The title of a tema opened by the loop holds no slash and no
    line break, so that its folder is the sorted directory with at most one
    component added: none for the empty title and for a single dot. *)
Theorem opened_titles_are_components lines t :
  t ∈ opened lines →
  (SLASH ∉ title t) ∧ (NEWLINE ∉ title t)
  ∧ folder t
    = Path (absolute PROFE_SORTED_DIR)
        (parts PROFE_SORTED_DIR
         ++ (if str_eqb (title t) [] || str_eqb (title t) [DOT]
             then [] else [title t])).
Proof.
  intros Hin.
  assert ((SLASH ∉ title t) ∧ (NEWLINE ∉ title t)) as [Hs Hn].
  { induction lines as [|l rest IH]; simpl in Hin; [by apply elem_of_nil in Hin|].
    destruct (classify l) as [m|f|] eqn:E; [|auto..].
    apply elem_of_cons in Hin as [->|Hin]; [|auto]. simpl. split.
    - by apply replace_char_absent.
    - apply replace_char_keeps_absent; [done|].
      by eapply classify_content_no_newline. }
  split; [done|]. split; [done|].
  unfold folder, joinpath. by rewrite parse_path_plain.
Qed.

Ltac invert_matches :=
  repeat match goal with
  | H : matches (Cat _ _) _ |- _ => inversion H; subst; clear H
  | H : matches (Chr _) _ |- _ => inversion H; subst; clear H
  | H : matches (Grp _ _) _ |- _ => inversion H; subst; clear H
  | H : matches (Star _) _ |- _ => inversion H; subst; clear H
  end.

Lemma FILENAME_PATTERN_shape s :
  matches FILENAME_PATTERN s →
  ∃ a b, s = a ++ [LRM] ++ lit "<attached: " ++ b ++ lit ">"
         ∧ (NEWLINE ∉ a) ∧ (NEWLINE ∉ b).
Proof.
  unfold FILENAME_PATTERN, Lits. cbn [cat_all lit list_ascii_of_string map].
  intros M. invert_matches.
  eexists _, _. split; [reflexivity|].
  split; by apply Forall_cls_dot_no_newline.
Qed.

(** X4.  A line only adds a file when it starts with U+200E and its
    message, stripped, holds a second U+200E directly followed by
    [<attached: ] and, later, a closing [>]; the file name it adds holds no
    line break. *)
Theorem attachment_needs_inner_marker line f :
  classify line = Attachment f →
  (NEWLINE ∉ f)
  ∧ ∃ g m a b rest,
      re_match PATTERN line = Some g ∧ g 5%nat = Some m
      ∧ starts_with [LRM] line = true
      ∧ strip m = a ++ [LRM] ++ lit "<attached: " ++ b ++ lit ">" ++ rest.
Proof.
  unfold classify. destruct (re_match PATTERN line) as [g|] eqn:E; [|done].
  destruct (PATTERN_message _ _ E) as [m Hm]. rewrite Hm. simpl.
  destruct (opens_tema _ _); [done|].
  destruct (names_file _ _) eqn:Hnf; [|done].
  destruct (re_match FILENAME_PATTERN (strip m)) as [g'|] eqn:E'; [|done].
  destruct (FILENAME_PATTERN_name _ _ E') as [f' Hf]. rewrite Hf. simpl.
  intros [= <-]. split; [by eapply FILENAME_PATTERN_name_no_newline|].
  apply re_match_sound in E' as [(s1 & s2 & Hs & M) _].
  apply FILENAME_PATTERN_shape in M as (a & b & -> & _ & _).
  exists g, m, a, b, s2. split; [done|]. split; [done|]. split.
  - etransitivity; [symmetry; apply (PATTERN_marker_iff _ _ E)|].
    unfold names_file in Hnf. by destruct (truthy _).
  - rewrite Hs. by rewrite <- !app_assoc.
Qed.

End LineExtras.

(** ** Grouping, the engine and the whole script *)

Section GroupingExtras.
Context {db : UnicodeDB} {dirs : Paths}.

Lemma announced_opened lines :
  announced lines = map (fun t => Appending (title t)) (opened lines).
Proof.
  induction lines as [|l rest IH]; simpl; [done|].
  destruct (classify l); simpl; by rewrite IH.
Qed.

Lemma absorb_lookup ts fs i t :
  ts !! i = Some t →
  ∃ t', absorb ts fs !! i = Some t' ∧ title t' = title t
        ∧ ∃ more, files t' = files t ++ more.
Proof.
  intros Hi. unfold absorb. destruct (last ts) as [tl|] eqn:E.
  - apply last_Some in E as [ts0 ->]. rewrite removelast_last.
    destruct (decide (i < length ts0)%nat) as [Hlt|Hge].
    + rewrite lookup_app_l in Hi |- * by done.
      exists t. split; [done|]. split; [done|]. exists []. by rewrite app_nil_r.
    + rewrite lookup_app_r in Hi |- * by lia.
      destruct (i - length ts0)%nat; [|done]. injection Hi as ->.
      eexists. split; [done|]. split; [done|]. by eexists.
  - apply last_None in E as ->. done.
Qed.

(** X5.  The grouping loop only ever adds: when it returns, the temas it
    was given are still there, at the same positions and under the same
    titles, each with its files as a prefix of what it holds now; after them
    comes one tema for each content line, in the order of the lines, also
    when two lines have the same text; and what was printed is one
    announcement for each of those. *)
Theorem grouping_keeps_loaded_temas ts lines w ts' w' :
  for_acc loop_body lines ts w = (Done ts', w') →
  map title ts' = map title ts ++ map title (opened lines)
  ∧ stdout w' = stdout w ++ map (fun t => Appending (title t)) (opened lines)
  ∧ ∀ i t, ts !! i = Some t →
      ∃ t', ts' !! i = Some t' ∧ title t' = title t
            ∧ ∃ more, files t' = files t ++ more.
Proof.
  rewrite for_acc_loop_body. intros [= Hg <-].
  assert (grouped ts lines
          = (Done (absorb ts (leading lines) ++ opened lines), announced lines))
    as Hd.
  { unfold grouped in *. destruct ts, (leading lines); done. }
  rewrite Hd in *. simpl in Hg. injection Hg as <-.
  split; [|split].
  - rewrite map_app. f_equal. unfold absorb.
    destruct (last ts) as [tl|] eqn:E.
    + apply last_Some in E as [ts0 ->].
      by rewrite removelast_last, !map_app.
    + by apply last_None in E as ->.
  - rewrite emit_stdout. simpl. by rewrite announced_opened.
  - intros i t Hi.
    destruct (absorb_lookup _ (leading lines) _ _ Hi) as (t' & Ht' & Hr).
    exists t'. split; [|done]. by apply lookup_app_l_Some.
Qed.

(** X6.  When no tema was loaded and the new lines name a file before any
    content line, the run ends with [IndexError] from [temas[-1]]: nothing is
    written to [pickle.pkl], nothing is placed. *)
Theorem orphan_first_run_raises lines w :
  loaded_temas w = [] → leading (window w lines) ≠ [] →
  engine lines w = (Raised IndexError, emit (load_output w) w).
Proof.
  intros Ht Hl. rewrite engine_unfold. cbv zeta.
  assert (Nat.eqb (loaded_index w) (length lines) = false) as ->.
  { apply Nat.eqb_neq. intros E. apply Hl. unfold window.
    by rewrite E, drop_all. }
  rewrite Ht. unfold grouped. destruct (leading (window w lines)); [done|].
  simpl. by rewrite emit_nil.
Qed.

(** X7.  A first run on a log of fewer than 23 lines is not a no-op: it
    parses nothing, places nothing and writes the length of the log, with an
    empty list of temas, to [pickle.pkl]. *)
Theorem short_first_log lines w :
  pickle w = None → (length lines < 23)%nat →
  engine lines w
  = (Done tt, set_pickle (Some (Resume (length lines) [])) w).
Proof.
  intros Hp Hlen. rewrite engine_unfold. cbv zeta.
  unfold loaded_index, loaded_temas, load_output, window, loaded_index.
  rewrite Hp.
  assert (Nat.eqb 23 (length lines) = false) as -> by (apply Nat.eqb_neq; lia).
  rewrite drop_ge by lia. simpl. by rewrite !emit_nil.
Qed.


End GroupingExtras.

Section MainExtras.
Context {db : UnicodeDB} {dirs : Paths} {conv : Converter}.

(** X10.  When the archives are moved and unpacked and the chat log has
    exactly as many lines as the loaded index, the script exits at the
    notice: the placement and the conversion of the audio files do not
    run. *)
Theorem no_new_lines_skips_conversion w w1 ls :
  (move_zips ;;; extract_zips) w = (Done tt, w1) →
  stat (disk w1) CHAT_FILE = Some (File ls) →
  loaded_index w1 = length ls →
  main w = (Exited, emit (load_output w1 ++ [NoNewLines]) w1).
Proof.
  intros Hrun Hchat Hidx. unfold main. rewrite <- bind_assoc.
  unfold bind at 1. rewrite Hrun.
  unfold read_chat. unfold bind at 1 2. simpl.
  unfold exists_. rewrite Hchat. simpl.
  unfold bind. by rewrite engine_no_new_lines.
Qed.

End MainExtras.

(** ** Placing a file twice, and the folder *)

Lemma rename_lookup_outside d src dst q :
  below dst q = false → d !! q = None → rename d src dst !! q = None.
Proof.
  intros Hb Hq. unfold rename. apply lookup_union_None. split.
  - apply not_elem_of_list_to_map.
    intros (e & He & Hin)%list_elem_of_fmap.
    apply list_elem_of_In, in_map_iff in Hin as (e' & <- & _). simpl in He.
    rewrite He in Hb. by rewrite reroot_below in Hb.
  - apply map_lookup_filter_None. by left.
Qed.

Lemma norm_snoc a ps x :
  x ≠ [DOT; DOT] →
  norm (Path a (ps ++ [x])) = Path a (parts (norm (Path a ps)) ++ [x]).
Proof.
  intros Hx. unfold norm. simpl. rewrite fold_left_app. simpl.
  unfold norm_step at 1. unfold str_eqb.
  by rewrite bool_decide_eq_false_2.
Qed.

Lemma name_stem_suffix p : name p = stem p ++ suffix p.
Proof.
  unfold stem, suffix. destruct (rfind DOT (name p)) as [i|]; simpl.
  - destruct (Nat.ltb 0 i && Nat.ltb i (length (name p) - 1))%bool eqn:E.
    + apply andb_true_iff in E as [_ E%Nat.ltb_lt].
      rewrite length_drop.
      replace (length (name p) - (length (name p) - i))%nat with i by lia.
      by rewrite take_drop.
    + simpl. by rewrite Nat.sub_0_r, firstn_all, app_nil_r.
  - by rewrite Nat.sub_0_r, firstn_all, app_nil_r.
Qed.

Lemma convertible_name_differs p :
  convertible p = true → stem p ++ lit ".wav" ≠ name p.
Proof.
  unfold convertible, str_eqb. intros Hc E.
  rewrite (name_stem_suffix p) in E. apply app_inv_head in E.
  rewrite <- E in Hc. by vm_compute in Hc.
Qed.

Lemma suffix_nonempty_name p : suffix p ≠ [] → name p ≠ [DOT; DOT].
Proof. unfold suffix. intros Hs E. rewrite E in Hs. by vm_compute in Hs. Qed.

Lemma stem_component p :
  component (name p) → component (stem p ++ lit ".wav").
Proof.
  intros (_ & _ & Hs). unfold component. split; [|split].
  - intros [_ ?]%app_eq_nil. done.
  - intros E. apply (f_equal length) in E. rewrite length_app in E.
    simpl in E. lia.
  - intros [Hin|Hin]%elem_of_app.
    + apply Hs. unfold stem in Hin. by eapply subseteq_take.
    + by vm_compute in Hin; repeat (apply elem_of_cons in Hin as [?|Hin]; [done|]);
        apply elem_of_nil in Hin.
Qed.

Lemma converted_name_not_dots p : stem p ++ lit ".wav" ≠ [DOT; DOT].
Proof.
  intros E. apply (f_equal length) in E. rewrite length_app in E.
  simpl in E. lia.
Qed.

Section PlacementExtras.
Context {dirs : Paths}.

(** The path probed for a convertible file is not the place the file is
    moved to, nor below it. *)
Lemma converted_not_below t file :
  wf_path file → name file ≠ [] → convertible file = true →
  below (norm (folder t // name file)) (norm (prospective t file)) = false.
Proof.
  intros Hwf Hn Hc. pose proof (name_component _ Hwf Hn) as Hcomp.
  assert (name file ≠ [DOT; DOT]) as Hdd.
  { apply suffix_nonempty_name. unfold convertible, str_eqb in Hc.
    intros Es. rewrite Es in Hc. by vm_compute in Hc. }
  unfold prospective, prospective_name. rewrite Hc.
  rewrite !join_component by (done || by apply stem_component).
  rewrite !norm_snoc by (done || apply converted_name_not_dots).
  unfold below. simpl. rewrite bool_decide_eq_true_2 by done. simpl.
  apply bool_decide_eq_false_2. rewrite !length_app. simpl.
  rewrite firstn_all2 by (rewrite length_app; simpl; lia).
  intros E%app_inv_head. injection E as E.
  by apply (convertible_name_differs file).
Qed.

Lemma move_in_done t file w w1 :
  move_in t file w = (Done tt, w1) →
  ∃ d', shutil_move (disk w) file (folder t) = inr d'
        ∧ w1 = set_disk d' (emit [Adding file (folder t)] w).
Proof.
  unfold move_in, bind, print, fs_call. destruct w as [o p d z]. simpl.
  destruct (shutil_move _ _ _) as [e|d']; [done|].
  intros [= <-]. eauto.
Qed.

(** X11.  Placing is idempotent for a file that needs no conversion: once
    [place_file] has returned for a file that was on the disk, with the
    folder in place, a second call on the same file is a skip. *)
Theorem placing_twice_is_placing_once t file c w w1 :
  wf_path file → name file ≠ [] → convertible file = false →
  stat (disk w) file = Some (File c) → isdir (disk w) (folder t) = true →
  place_file t file w = (Done tt, w1) →
  place_file t file w1 = (Done tt, w1).
Proof.
  intros Hwf Hn Hc Hf Hdir. rewrite !place_file_unfold by done.
  destruct (exists_ (disk w) (prospective t file)) eqn:E.
  - intros [= <-]. by rewrite E.
  - intros (d' & Hmv & ->)%move_in_done.
    destruct (shutil_move_file _ _ _ _ _ Hf Hdir Hmv) as [Hdst _].
    unfold prospective, prospective_name. rewrite Hc. simpl.
    unfold exists_. by rewrite Hdst.
Qed.

(** X12.  It is not for a file that needs conversion: after [place_file]
    has moved an [.ogg] or [.opus] file into the folder, and as long as no
    [.wav] of that name is there, a second call on the same file raises. *)
Theorem converted_name_not_yet_there t file c w w1 :
  wf_path file → name file ≠ [] → convertible file = true →
  stat (disk w) file = Some (File c) → isdir (disk w) (folder t) = true →
  below (norm (folder t // name file)) (norm file) = false →
  exists_ (disk w) (prospective t file) = false →
  place_file t file w = (Done tt, w1) →
  ∃ e, place_file t file w1
       = (Raised e, emit [Adding file (folder t)] w1).
Proof.
  intros Hwf Hn Hc Hf Hdir Hb E. rewrite !place_file_unfold by done.
  rewrite E. intros (d' & Hmv & ->)%move_in_done.
  destruct (shutil_move_file _ _ _ _ _ Hf Hdir Hmv) as [_ Hsrc].
  specialize (Hsrc Hb).
  assert (exists_ d' (prospective t file) = false) as Hp.
  { revert Hmv. unfold shutil_move. rewrite Hdir, Hf. simpl.
    destruct (exists_ (disk w) (folder t // name file)) eqn:Hdst; [done|].
    destruct (negb _); [done|]. intros [= <-].
    unfold exists_, stat in E |- *.
    destruct (parts (norm (prospective t file))) eqn:Ep; [done|].
    rewrite rename_lookup_outside; [done| |by destruct (disk w !! _)].
    by apply converted_not_below. }
  simpl. rewrite Hp.
  apply move_in_stale. unfold exists_. simpl. by rewrite Hsrc.
Qed.

End PlacementExtras.

Lemma norm_eta p : Path (absolute (norm p)) (parts (norm p)) = norm p.
Proof. done. Qed.




Section FolderExtras.
Context {dirs : Paths}.


End FolderExtras.

(** ** The properties above on sample data *)

(** An equation between closed terms, settled by evaluating both sides. *)
Ltac by_evaluation :=
  lazymatch goal with
  | |- _ = ?r => vm_cast_no_check (@eq_refl _ r)
  end.

Lemma marker_decides_role_witness :
  (∀ ts w ts' w',
     @loop_body Sample.tables Sample.dirs ts (Sample.sent "b.opus") w
     = (Done ts', w') → map title ts' = map title ts ∧ w' = w)
  ∧ (∀ ts w,
       @loop_body Sample.tables Sample.dirs ts (Sample.said "A") w = (Done ts, w)
       ∨ ∃ m, @loop_body Sample.tables Sample.dirs ts (Sample.said "A") w
              = (Done (ts ++ [Tema m []]), emit [Appending m] w)).
Proof.
  split.
  - apply (proj1 (@marker_decides_role Sample.tables Sample.dirs
                    (Sample.sent "b.opus"))).
    by_evaluation.
  - apply (proj2 (@marker_decides_role Sample.tables Sample.dirs
                    (Sample.said "A"))).
    by_evaluation.
Defined.

Lemma omitted_line_changes_nothing_witness :
  @loop_body Sample.tables Sample.dirs [Sample.tema_A]
    (Sample.said "<Media omitted>") (Sample.fresh [])
  = (Done [Sample.tema_A], Sample.fresh []).
Proof.
  apply (@omitted_line_changes_nothing Sample.tables Sample.dirs
           (Sample.said "<Media omitted>")
           (default no_caps
              (re_match (@PATTERN Sample.tables) (Sample.said "<Media omitted>")))
           (lit "<Media omitted>"));
    by_evaluation.
Defined.

Lemma opened_titles_are_components_witness :
  @folder Sample.dirs (Tema (lit "A_b") [])
  = Path false [lit "profe"; lit "sorted"; lit "A_b"].
Proof.
  refine (eq_trans
            (proj2 (proj2 (@opened_titles_are_components Sample.tables Sample.dirs
                             [Sample.said "A/b"] (Tema (lit "A_b") []) _))) _).
  - apply list_elem_of_In. vm_compute. auto.
  - by_evaluation.
Defined.

Lemma attachment_needs_inner_marker_witness :
  (NEWLINE ∉ lit "b.opus")
  ∧ ∃ g m a b rest,
      re_match (@PATTERN Sample.tables) (Sample.sent "b.opus") = Some g
      ∧ g 5%nat = Some m
      ∧ starts_with [LRM] (Sample.sent "b.opus") = true
      ∧ @strip Sample.tables m
        = a ++ [LRM] ++ lit "<attached: " ++ b ++ lit ">" ++ rest.
Proof.
  apply (@attachment_needs_inner_marker Sample.tables
           (Sample.sent "b.opus") (lit "b.opus")).
  by_evaluation.
Defined.

Lemma grouping_keeps_loaded_temas_witness :
  map title [Tema (lit "A") [Sample.in_dump "a.opus"; Sample.in_dump "b.opus"];
             Tema (lit "B") []]
  = map title [Sample.tema_A]
    ++ map title (@opened Sample.tables Sample.dirs
                    [Sample.sent "b.opus"; Sample.said "B"]).
Proof.
  apply (proj1 (@grouping_keeps_loaded_temas Sample.tables Sample.dirs
                  [Sample.tema_A] [Sample.sent "b.opus"; Sample.said "B"]
                  (Sample.fresh [])
                  [Tema (lit "A") [Sample.in_dump "a.opus"; Sample.in_dump "b.opus"];
                   Tema (lit "B") []]
                  (emit [Appending (lit "B")] (Sample.fresh []))
                  ltac:(by_evaluation))).
Defined.

Lemma orphan_first_run_raises_witness :
  @engine Sample.tables Sample.dirs (Sample.header ++ [Sample.sent "a.opus"])
    (Sample.fresh ["a.opus"%string])
  = (Raised IndexError, emit [] (Sample.fresh ["a.opus"%string])).
Proof.
  apply (@orphan_first_run_raises Sample.tables Sample.dirs
           (Sample.header ++ [Sample.sent "a.opus"])
           (Sample.fresh ["a.opus"%string]) eq_refl).
  vm_compute. discriminate.
Defined.

Lemma short_first_log_witness :
  @engine Sample.tables Sample.dirs [Sample.said "A"; Sample.sent "a.opus"]
    (Sample.fresh ["a.opus"%string])
  = (Done tt,
     set_pickle (Some (Resume 2 [])) (Sample.fresh ["a.opus"%string])).
Proof.
  apply (@short_first_log Sample.tables Sample.dirs
           [Sample.said "A"; Sample.sent "a.opus"]
           (Sample.fresh ["a.opus"%string]) eq_refl).
  vm_compute. lia.
Defined.

Lemma resumed_grouping_agrees_witness :
  ∃ ts2',
    @for_acc _ _ (@loop_body Sample.tables Sample.dirs)
      [Sample.sent "b.opus"; Sample.said "B"]
      (List.filter has_files [Sample.tema_A])
      (emit [Appending (lit "A")] (Sample.fresh []))
    = (Done ts2', emit [Appending (lit "A"); Appending (lit "B")] (Sample.fresh []))
    ∧ List.filter has_files ts2'
      = List.filter has_files
          [Tema (lit "A") [Sample.in_dump "a.opus"; Sample.in_dump "b.opus"];
           Tema (lit "B") []].
Proof.
  apply (@resumed_grouping_agrees Sample.tables Sample.dirs []
           [Sample.said "A"; Sample.sent "a.opus"]
           [Sample.sent "b.opus"; Sample.said "B"]
           [Sample.tema_A]
           [Tema (lit "A") [Sample.in_dump "a.opus"; Sample.in_dump "b.opus"];
            Tema (lit "B") []]
           (Sample.fresh [])).
  - by_evaluation.
  - by_evaluation.
  - left. reflexivity.
Defined.

Lemma no_new_lines_skips_conversion_witness :
  (@main Sample.tables Sample.dirs Sample.idle
     (Sample.waiting [(lit "_chat.txt", Sample.header)])).1 = Exited.
Proof.
  exact (f_equal fst
           (@no_new_lines_skips_conversion Sample.tables Sample.dirs Sample.idle
              (Sample.waiting [(lit "_chat.txt", Sample.header)])
              (@bind _ _ (@move_zips Sample.dirs)
                 (fun _ => @extract_zips Sample.dirs)
                 (Sample.waiting [(lit "_chat.txt", Sample.header)])).2
              Sample.header
              ltac:(by_evaluation) ltac:(by_evaluation) ltac:(by_evaluation))).
Defined.

Lemma placing_twice_is_placing_once_witness :
  @place_file Sample.dirs (Tema (lit "A") [Sample.in_dump "a.jpg"])
    (Sample.in_dump "a.jpg")
    (@place_tema Sample.dirs (Tema (lit "A") [Sample.in_dump "a.jpg"])
       (Sample.fresh ["a.jpg"%string])).2
  = (Done tt,
     (@place_tema Sample.dirs (Tema (lit "A") [Sample.in_dump "a.jpg"])
        (Sample.fresh ["a.jpg"%string])).2).
Proof.
  apply (@placing_twice_is_placing_once Sample.dirs
           (Tema (lit "A") [Sample.in_dump "a.jpg"]) (Sample.in_dump "a.jpg") []
           (@ensure_folder Sample.dirs (Tema (lit "A") [Sample.in_dump "a.jpg"])
              (Sample.fresh ["a.jpg"%string])).2
           (@place_tema Sample.dirs (Tema (lit "A") [Sample.in_dump "a.jpg"])
              (Sample.fresh ["a.jpg"%string])).2).
  - compute_done.
  - vm_compute. discriminate.
  - by_evaluation.
  - by_evaluation.
  - by_evaluation.
  - by_evaluation.
Defined.

Lemma converted_name_not_yet_there_witness :
  ∃ e,
    @place_file Sample.dirs Sample.tema_A (Sample.in_dump "a.opus")
      (@place_tema Sample.dirs Sample.tema_A (Sample.fresh ["a.opus"%string])).2
    = (Raised e,
       emit [Adding (Sample.in_dump "a.opus") (@folder Sample.dirs Sample.tema_A)]
         (@place_tema Sample.dirs Sample.tema_A
            (Sample.fresh ["a.opus"%string])).2).
Proof.
  apply (@converted_name_not_yet_there Sample.dirs Sample.tema_A
           (Sample.in_dump "a.opus") []
           (@ensure_folder Sample.dirs Sample.tema_A
              (Sample.fresh ["a.opus"%string])).2
           (@place_tema Sample.dirs Sample.tema_A
              (Sample.fresh ["a.opus"%string])).2).
  - compute_done.
  - vm_compute. discriminate.
  - by_evaluation.
  - by_evaluation.
  - by_evaluation.
  - by_evaluation.
  - by_evaluation.
  - by_evaluation.
Defined.


(** ** The transcription script *)

Module TranscribirFacts.
Import Transcribir.

Lemma break_sentences_step a b s :
  break_sentences (a :: b :: s)
  = if (a =? DOT) && (b =? 32) then DOT :: NEWLINE :: break_sentences s
    else a :: break_sentences (b :: s).
Proof. reflexivity. Qed.

Lemma length_break_sentences_aux n : ∀ s,
  (length s ≤ n)%nat → length (break_sentences s) = length s.
Proof.
  induction n as [|n IH]; intros s Hs.
  - by destruct s; [|simpl in Hs; lia].
  - destruct s as [|a [|b s]]; [done..|]. simpl in Hs.
    rewrite break_sentences_step. destruct ((a =? DOT) && (b =? 32)).
    + cbn [length]. rewrite IH by lia. done.
    + cbn [length]. rewrite (IH (b :: s)) by (simpl; lia). done.
Qed.

Lemma head_break_sentences s : head (break_sentences s) = head s.
Proof.
  destruct s as [|a [|b s]]; [done..|]. rewrite break_sentences_step.
  destruct (a =? DOT) eqn:Ea; [|done]. destruct (b =? 32); [|done].
  simpl. apply N.eqb_eq in Ea. by subst.
Qed.

Lemma no_break_left_aux n : ∀ s,
  (length s ≤ n)%nat → contains [DOT; 32] (break_sentences s) = false.
Proof.
  induction n as [|n IH]; intros s Hs.
  - by destruct s; [|simpl in Hs; lia].
  - destruct s as [|a [|b s]].
    + done.
    + simpl. by rewrite andb_false_r.
    + simpl in Hs. rewrite break_sentences_step.
      destruct (a =? DOT) eqn:Ea; destruct (b =? 32) eqn:Eb; cbn [andb].
      * cbn [contains starts_with]. rewrite IH by lia.
        replace (32 =? NEWLINE) with false by done.
        replace (DOT =? NEWLINE) with false by done.
        by rewrite !andb_false_r.
      * cbn [contains]. rewrite (IH (b :: s)) by (simpl; lia).
        rewrite orb_false_r. cbn [starts_with].
        pose proof (head_break_sentences (b :: s)) as Hh.
        destruct (break_sentences (b :: s)) as [|c r]; [by rewrite andb_false_r|].
        simpl in Hh. injection Hh as ->. cbn [starts_with].
        rewrite (N.eqb_sym 32 b), Eb. by rewrite !andb_false_r.
      * cbn [contains]. rewrite (IH (b :: s)) by (simpl; lia).
        rewrite orb_false_r. cbn [starts_with].
        by rewrite (N.eqb_sym DOT a), Ea.
      * cbn [contains]. rewrite (IH (b :: s)) by (simpl; lia).
        rewrite orb_false_r. cbn [starts_with].
        by rewrite (N.eqb_sym DOT a), Ea.
Qed.

(** X18.  The text written for an audio file has the length of the text
    stripped, and no full stop in it is followed by a space: each one that
    was is now followed by a line break. *)
Theorem sentences_end_lines s :
  length (break_sentences s) = length s
  ∧ contains (lit ". ") (break_sentences s) = false.
Proof.
  split.
  - by apply (length_break_sentences_aux (length s)).
  - by apply (no_break_left_aux (length s)).
Qed.

Lemma exists_insert d k v q :
  exists_ d q = true → exists_ (<[k := v]> d) q = true.
Proof.
  unfold exists_, stat. destruct (parts (norm q)); [done|].
  destruct (decide (k = norm q)) as [->|Hk].
  - by rewrite lookup_insert_eq.
  - by rewrite lookup_insert_ne.
Qed.

Lemma exists_insert_dirs d l q :
  exists_ d q = true →
  exists_ (foldr (fun a acc => <[a := Dir]> acc) d l) q = true.
Proof.
  intros Hq. induction l as [|a l IH]; simpl; [done|]. by apply exists_insert.
Qed.

Lemma mkdir_p_mono d p d' q :
  mkdir_p d p = inr d' → exists_ d q = true → exists_ d' q = true.
Proof.
  unfold mkdir_p. destruct (isdir d p); [by intros [= <-]|].
  destruct (exists_ d p); [done|]. destruct (existsb _ _); [done|].
  intros [= <-]. apply exists_insert_dirs.
Qed.

Lemma write_file_mono d p c d' q :
  write_file d p c = inr d' → exists_ d q = true → exists_ d' q = true.
Proof.
  unfold write_file. destruct (isdir d p); [done|].
  destruct (existsb _ _); [done|]. intros [= <-] Hq.
  by apply exists_insert, exists_insert_dirs.
Qed.

Lemma write_file_exists d p c d' :
  write_file d p c = inr d' → exists_ d' p = true.
Proof.
  unfold write_file. destruct (isdir d p); [done|].
  destruct (existsb _ _); [done|]. intros [= <-].
  unfold exists_, stat. destruct (parts (norm p)); [done|].
  by rewrite lookup_insert_eq.
Qed.

Section LoopFacts.
Context {db : UnicodeDB} {ds : Dirs} {tools : Tools}.

Lemma extract_one_done done v s s' :
  extract_one done v s = (Done tt, s') →
  (∃ e, extracted_of v = Some e ∧ e ∈ done)
  ∧ s' = State (printed s ++ [Skipping v]) (tree s).
Proof.
  unfold extract_one. destruct (extracted_of v) as [e|]; [|done].
  case_bool_decide as He.
  - intros [= <-]. eauto.
  - unfold mbind, T_bind, print, load, fs_call, raise. simpl.
    destruct (stat (tree s) v) as [k|]; [|done].
    destruct (librosa_load k) as [?|y]; [done|].
    destruct (mkdir_p _ _) as [?|d1]; [done|]. simpl.
    destruct (write_file _ _ _) as [?|d2]; done.
Qed.

(** X14.  The extraction loop only completes when it has skipped every
    video: the audio of each was listed as extracted already, one line was
    printed for each, and the disk is as it was. *)
Theorem extraction_completes_only_by_skipping done videos s s' :
  for_each (extract_one done) videos s = (Done tt, s') →
  Forall (fun v => ∃ e, extracted_of v = Some e ∧ e ∈ done) videos
  ∧ s' = State (printed s ++ map Skipping videos) (tree s).
Proof.
  revert s. induction videos as [|v videos IH]; intros s; simpl.
  - intros [= <-]. split; [done|]. destruct s. simpl. by rewrite app_nil_r.
  - unfold mbind, T_bind at 1.
    destruct (extract_one done v s) as [[[]| |e] s1] eqn:E1; [|done..].
    apply extract_one_done in E1 as [Hv ->].
    intros [Hvs ->]%IH. split; [by constructor|]. simpl.
    by rewrite <- app_assoc.
Qed.

(** X15.  For a video whose audio is not listed, once the samples are
    loaded and the audio file is written, the loop raises [TypeError] at the
    line that adds a path to a string: the file is on the disk, and no video
    after this one is looked at. *)
Theorem extraction_raises_after_writing done v rest s e k y d1 d2 :
  extracted_of v = Some e → e ∉ done →
  stat (tree s) v = Some k → librosa_load k = inr y →
  mkdir_p (tree s) (parent (join audios_dir e)) = inr d1 →
  write_file d1 (join audios_dir e) y = inr d2 →
  for_each (extract_one done) (v :: rest) s
  = (Raised TypeError, State (printed s ++ [DoingVideo (stem v)]) d2).
Proof.
  intros He Hn Hk Hy Hd1 Hd2. simpl. unfold mbind, T_bind at 1.
  unfold extract_one. rewrite He. rewrite bool_decide_eq_false_2 by done.
  unfold mbind, T_bind, print, load, fs_call, raise. cbn [tree printed].
  rewrite Hk, Hy. cbn [tree printed]. rewrite Hd1. cbn [tree printed].
  by rewrite Hd2.
Qed.

Lemma transcribe_one_done done base f s s1 :
  transcribe_one done base f s = (Done tt, s1) →
  ∃ c, converted_of base f = Some c
       ∧ ((c ∈ done ∧ s1 = s)
          ∨ ((c ∉ done)
             ∧ printed s1 = printed s ++ [DoingAudio f]
             ∧ exists_ (tree s1) (join transcriptions_dir c) = true
             ∧ ∀ q, exists_ (tree s) q = true → exists_ (tree s1) q = true)).
Proof.
  unfold transcribe_one. destruct (converted_of base f) as [c|]; [|done].
  intros Hrun. exists c. split; [done|]. revert Hrun.
  case_bool_decide as Hc.
  - intros [= <-]. by left.
  - unfold mbind, T_bind, print, transcribe, fs_call. cbn [tree printed].
    destruct (stat (tree s) f) as [k|]; [|done].
    destruct (whisper_transcribe k) as [?|raw]; [done|]. cbn [tree printed].
    destruct (mkdir_p _ _) as [?|d1] eqn:E1; [done|]. cbn [tree printed].
    destruct (write_file _ _ _) as [?|d2] eqn:E2; [done|].
    intros [= <-]. right. split; [done|]. split; [done|]. cbn [tree].
    split; [by eapply write_file_exists|].
    intros q Hq. eapply write_file_mono; [done|]. by eapply mkdir_p_mono.
Qed.

Lemma transcribe_all_mono done base fs : ∀ s s',
  for_each (transcribe_one done base) fs s = (Done tt, s') →
  ∀ q, exists_ (tree s) q = true → exists_ (tree s') q = true.
Proof.
  induction fs as [|f fs IH]; intros s s'; simpl.
  - by intros [= <-].
  - unfold mbind, T_bind at 1.
    destruct (transcribe_one done base f s) as [[[]| |e] s1] eqn:E1; [|done..].
    intros Hrest q Hq. apply (IH _ _ Hrest).
    apply transcribe_one_done in E1 as (c & _ & [[_ ->]|(_ & _ & _ & Hm)]); auto.
Qed.

(** X16.  When the transcription loop completes, starting from a disk
    that holds the transcripts listed, a transcript exists for every audio
    file of the loop. *)
Theorem every_audio_has_a_transcript done base fs s s' :
  (∀ c, c ∈ done → exists_ (tree s) (join transcriptions_dir c) = true) →
  for_each (transcribe_one done base) fs s = (Done tt, s') →
  ∀ f, f ∈ fs →
    ∃ c, converted_of base f = Some c
         ∧ exists_ (tree s') (join transcriptions_dir c) = true.
Proof.
  revert s. induction fs as [|f0 fs IH]; intros s Hdone; simpl.
  - intros _ f Hf. by apply elem_of_nil in Hf.
  - unfold mbind, T_bind at 1.
    destruct (transcribe_one done base f0 s) as [[[]| |e] s1] eqn:E1; [|done..].
    intros Hrest f Hf.
    pose proof (transcribe_all_mono _ _ _ _ _ Hrest) as Hmono.
    apply transcribe_one_done in E1 as (c & Hc & Hcase).
    assert (∀ q, exists_ (tree s) q = true → exists_ (tree s1) q = true) as H1.
    { destruct Hcase as [[_ ->]|(_ & _ & _ & Hm)]; auto. }
    apply elem_of_cons in Hf as [->|Hf].
    + exists c. split; [done|]. apply Hmono.
      destruct Hcase as [[Hin ->]|(_ & _ & He & _)]; auto.
    + apply (IH s1); auto.
Qed.

(** X17.  The audio files the transcription loop works on are those whose
    transcript was not listed when the loop began, each of them, in order:
    the list is not brought up to date, so that of two files with the same
    transcript name both are transcribed. *)
Theorem transcribed_are_those_pending done base fs s s' :
  for_each (transcribe_one done base) fs s = (Done tt, s') →
  printed s'
  = printed s ++ map DoingAudio (List.filter (pending done base) fs).
Proof.
  revert s. induction fs as [|f fs IH]; intros s; simpl.
  - intros [= <-]. by rewrite app_nil_r.
  - unfold mbind, T_bind at 1.
    destruct (transcribe_one done base f s) as [[[]| |e] s1] eqn:E1; [|done..].
    intros Hrest. rewrite (IH _ Hrest).
    apply transcribe_one_done in E1 as (c & Hc & Hcase).
    unfold pending at 2. rewrite Hc.
    destruct Hcase as [[Hin ->]|(Hn & Hp & _)].
    + by rewrite bool_decide_eq_false_2 by auto.
    + rewrite bool_decide_eq_true_2 by done. simpl.
      by rewrite Hp, <- app_assoc.
Qed.

End LoopFacts.
End TranscribirFacts.

Module TranscribirWitnesses.
Import Transcribir.

Lemma extraction_completes_only_by_skipping_witness :
  Forall (fun v => ∃ e, @extracted_of sample_dirs v = Some e
                        ∧ e ∈ [Path false [lit "a.wav"]])
    [Path false [lit "videos"; lit "a.mkv"]].
Proof.
  apply (proj1 (@TranscribirFacts.extraction_completes_only_by_skipping
                  sample_dirs sample_tools
                  [Path false [lit "a.wav"]]
                  [Path false [lit "videos"; lit "a.mkv"]]
                  sample_state
                  (State [Skipping (Path false [lit "videos"; lit "a.mkv"])]
                         (tree sample_state))
                  ltac:(by_evaluation))).
Defined.

Lemma extraction_raises_after_writing_witness :
  (@for_each _ (@extract_one sample_dirs sample_tools [])
     [Path false [lit "videos"; lit "a.mkv"];
      Path false [lit "videos"; lit "z.mkv"]]
     sample_state).1 = Raised TypeError.
Proof.
  refine (f_equal fst
            (@TranscribirFacts.extraction_raises_after_writing
               sample_dirs sample_tools []
               (Path false [lit "videos"; lit "a.mkv"])
               [Path false [lit "videos"; lit "z.mkv"]]
               sample_state
               (Path false [lit "a.wav"]) (File [lit "la"]) [lit "la"]
               (tree sample_state)
               (<[Path false [lit "audios"; lit "a.wav"] := File [lit "la"]]>
                  (tree sample_state))
               _ _ _ _ _ _)).
  - by_evaluation.
  - intros H. by apply elem_of_nil in H.
  - by_evaluation.
  - by_evaluation.
  - by_evaluation.
  - by_evaluation.
Defined.

Lemma every_audio_has_a_transcript_witness :
  ∃ c, converted_of (Path false [lit "audios"])
         (Path false [lit "audios"; lit "b.wav"]) = Some c
       ∧ exists_
           (tree (@for_each _
                    (@transcribe_one Sample.tables sample_dirs sample_tools []
                       (Path false [lit "audios"]))
                    [Path false [lit "audios"; lit "b.wav"]] sample_state).2)
           (join (@transcriptions_dir sample_dirs) c) = true.
Proof.
  apply (@TranscribirFacts.every_audio_has_a_transcript
           Sample.tables sample_dirs sample_tools []
           (Path false [lit "audios"])
           [Path false [lit "audios"; lit "b.wav"]] sample_state
           (@for_each _
              (@transcribe_one Sample.tables sample_dirs sample_tools []
                 (Path false [lit "audios"]))
              [Path false [lit "audios"; lit "b.wav"]] sample_state).2).
  - intros c Hc. by apply elem_of_nil in Hc.
  - by_evaluation.
  - apply list_elem_of_here.
Defined.

Lemma transcribed_are_those_pending_witness :
  printed
    (@for_each _
       (@transcribe_one Sample.tables sample_dirs sample_tools []
          (Path false [lit "audios"]))
       [Path false [lit "audios"; lit "b.wav"]] sample_state).2
  = [DoingAudio (Path false [lit "audios"; lit "b.wav"])].
Proof.
  refine (eq_trans
            (@TranscribirFacts.transcribed_are_those_pending
               Sample.tables sample_dirs sample_tools []
               (Path false [lit "audios"])
               [Path false [lit "audios"; lit "b.wav"]] sample_state
               (@for_each _
                  (@transcribe_one Sample.tables sample_dirs sample_tools []
                     (Path false [lit "audios"]))
                  [Path false [lit "audios"; lit "b.wav"]] sample_state).2
               _) _).
  - by_evaluation.
  - by_evaluation.
Defined.

End TranscribirWitnesses.
